(** * REACT-TODO-APP: the task-state engine and the sound engine

    A shallow embedding of [Source Code/src/TodoApp.jsx] (the task list,
    its handlers, the derived statistics and the localStorage
    synchronisation) and of [Source Code/src/SoundEngine.js] (the
    procedural audio feedback), with the properties of the specification
    stated and settled over that embedding.

    Conventions of the embedding:
    - a JavaScript string is the list of its UTF-16 code units;
    - a todo's [id] is the integer returned by [Date.now()], which the
      handlers receive as an argument;
    - code that calls into the browser (Web Audio, timers) runs in a small
      state/exception/trace monad: the trace records every call that was
      attempted, and an oracle says which calls throw;
    - JavaScript numbers that are computed with ([/], [*], [Math.round])
      are IEEE-754 binary64 values ([spec_float] at precision 53). *)

From Stdlib Require Import Ascii String.
From Stdlib Require Import List Bool ZArith NArith QArith Lia Permutation.
From Stdlib Require Import Floats.SpecFloat.
From Stdlib Require Import DecimalN DecimalPos DecimalFacts.
From Stdlib Require Import Sorted.
Import ListNotations.

Local Open Scope Z_scope.

(* ===================================================================== *)
(** ** JavaScript strings *)
(* ===================================================================== *)

Module JS.

(** A string value: its sequence of UTF-16 code units. *)
Definition jsstring := list N.

(** A string literal of the source, written in ASCII. *)
Definition lit (s : string) : jsstring :=
  List.map N_of_ascii (list_ascii_of_string s).

Definition jsstring_eqb (a b : jsstring) : bool :=
  if list_eq_dec N.eq_dec a b then true else false.

(** ECMAScript WhiteSpace and LineTerminator code points, the characters
    that [String.prototype.trim] strips: TAB, LF, VT, FF, CR, SP, NBSP,
    U+1680, U+2000..U+200A, LS, PS, U+202F, U+205F, U+3000 and the BOM. *)
Definition isWhiteSpace (c : N) : bool :=
  ((9 <=? c) && (c <=? 13) || (c =? 32) || (c =? 160) || (c =? 5760)
   || (8192 <=? c) && (c <=? 8202) || (c =? 8232) || (c =? 8233)
   || (c =? 8239) || (c =? 8287) || (c =? 12288) || (c =? 65279))%N.

Fixpoint trimStart (s : jsstring) : jsstring :=
  match s with
  | c :: r => if isWhiteSpace c then trimStart r else s
  | [] => []
  end.

Definition trimEnd (s : jsstring) : jsstring := rev (trimStart (rev s)).

(** [String.prototype.trim] *)
Definition trim (s : jsstring) : jsstring := trimEnd (trimStart s).

(** What a call can end with: a normal return or a thrown exception. *)
Inductive exn := SyntaxError | TypeError | NotSupportedError.

Inductive outcome (A : Type) : Type :=
| Returned (a : A)
| Threw (e : exn).
Arguments Returned {A} a.
Arguments Threw {A} e.

(** Effectful code over a mutable state [S] that leaves a trace of
    events [E] and may throw.  State written before a throw stays
    written, as in JavaScript. *)
Definition Eff (S E A : Type) : Type := S -> outcome A * S * list E.

Definition ret {S E A} (a : A) : Eff S E A := fun s => (Returned a, s, []).

Definition bind {S E A B} (m : Eff S E A) (k : A -> Eff S E B) : Eff S E B :=
  fun s =>
    match m s with
    | (Returned a, s1, l1) =>
        match k a s1 with (o, s2, l2) => (o, s2, l1 ++ l2) end
    | (Threw e, s1, l1) => (Threw e, s1, l1)
    end.

Definition get {S E} : Eff S E S := fun s => (Returned s, s, []).
Definition put {S E} (s : S) : Eff S E unit := fun _ => (Returned tt, s, []).
Definition emit {S E} (e : E) : Eff S E unit := fun s => (Returned tt, s, [e]).
Definition throw {S E A} (e : exn) : Eff S E A := fun s => (Threw e, s, []).

Definition result {S E A} (r : outcome A * S * list E) : outcome A := fst (fst r).
Definition final {S E A} (r : outcome A * S * list E) : S := snd (fst r).
Definition trace {S E A} (r : outcome A * S * list E) : list E := snd r.

End JS.

Import JS.

Declare Scope eff_scope.
Delimit Scope eff_scope with eff.
Notation "x <- m ;; k" := (bind m (fun x => k))
  (at level 61, m at next level, right associativity) : eff_scope.
Notation "m ;; k" := (bind m (fun _ => k))
  (at level 61, right associativity) : eff_scope.
Local Open Scope eff_scope.

(* ===================================================================== *)
(** ** SoundEngine.js *)
(* ===================================================================== *)

Module SoundEngine.

Inductive waveform := sine | square | sawtooth | triangle.

(** A point on the audio clock, relative to [audioCtx.currentTime] at the
    moment of the call: [currentTime] itself or [currentTime + d]. *)
Inductive when := currentTime | currentTimePlus (d : Q).

(** The calls the engine makes into the Web Audio backend. *)
Inductive audio_call :=
| NewAudioContext
| CreateOscillator
| CreateGain
| SetOscType (w : waveform)
| FrequencySetValueAtTime (f : Q) (t : when)
| FrequencyExponentialRamp (f : Q) (t : when)
| GainSetValueAtTime (v : Q) (t : when)
| GainLinearRamp (v : Q) (t : when)
| GainExponentialRamp (v : Q) (t : when)
| OscConnectGain
| GainConnectDestination
| OscStart
| OscStop (t : when).

(** The bodies of the arrow functions handed to [setTimeout]. *)
Inductive callback :=
| DeferredOscillator (freq : Q) (type : waveform) (duration volume : Q)
| VictoryVoice (harmonic : Q).

(** What a method of the engine does to the outside world. *)
Inductive effect :=
| Audio (c : audio_call)
| SetTimeout (cb : callback) (ms : N).

(** The backend as the engine meets it: for each call, whether it throws
    (no output device, no [AudioContext] constructor, permission denied). *)
Definition Backend := audio_call -> option exn.

(** A backend on which every call succeeds. *)
Definition working : Backend := fun _ => None.

(** A browser without a usable [AudioContext] constructor. *)
Definition no_audio_context : Backend :=
  fun c => match c with NewAudioContext => Some TypeError | _ => None end.

Inductive AudioContext := TheAudioContext.

(** The fields of the class: [this.audioCtx] and [this.enabled]. *)
Record t := { audioCtx : option AudioContext; enabled : bool }.

(** [constructor()] *)
Definition new : t := {| audioCtx := None; enabled := true |}.

Definition Snd (A : Type) : Type := Eff t effect A.

Section Methods.

Variable backend : Backend.

(** One call into the backend: recorded, and thrown out of if the backend
    refuses it. *)
Definition call (c : audio_call) : Snd unit :=
  emit (Audio c) ;;
  match backend c with
  | Some e => throw e
  | None => ret tt
  end.

Definition setTimeout (cb : callback) (ms : N) : Snd unit :=
  emit (SetTimeout cb ms).

(** [init()] *)
Definition init : Snd unit :=
  this <- get ;;
  match audioCtx this with
  | None =>
      call NewAudioContext ;;
      put {| audioCtx := Some TheAudioContext; enabled := enabled this |}
  | Some _ => ret tt
  end.

(** [setEnabled(val)] *)
Definition setEnabled (val : bool) : Snd unit :=
  this <- get ;;
  put {| audioCtx := audioCtx this; enabled := val |}.

(** [createOscillator(freq, type, duration, volume)] *)
Definition createOscillator (freq : Q) (type : waveform) (duration volume : Q)
  : Snd unit :=
  this <- get ;;
  match audioCtx this with
  | None => ret tt
  | Some _ =>
      if negb (enabled this) then ret tt
      else
        call CreateOscillator ;;
        call CreateGain ;;
        call (SetOscType type) ;;
        call (FrequencySetValueAtTime freq currentTime) ;;
        call (GainSetValueAtTime volume currentTime) ;;
        call (GainExponentialRamp (1 # 10000) (currentTimePlus duration)) ;;
        call OscConnectGain ;;
        call GainConnectDestination ;;
        call OscStart ;;
        call (OscStop (currentTimePlus duration))
  end.

(** [playClick()] *)
Definition playClick : Snd unit :=
  init ;;
  createOscillator 800 square (5 # 100) (2 # 100).

(** [playAdd()] *)
Definition playAdd : Snd unit :=
  init ;;
  createOscillator 400 sine (1 # 10) (5 # 100) ;;
  setTimeout (DeferredOscillator 600 sine (15 # 100) (5 # 100)) 50.

(** [playToggle(completed)] *)
Definition playToggle (completed : bool) : Snd unit :=
  init ;;
  if completed then
    createOscillator 1200 sine (1 # 10) (3 # 100) ;;
    setTimeout (DeferredOscillator 1500 sine (2 # 10) (2 # 100)) 40
  else
    createOscillator 600 sine (1 # 10) (3 # 100).

(** [playDelete()] *)
Definition playDelete : Snd unit :=
  init ;;
  createOscillator 300 sawtooth (1 # 10) (2 # 100).

Definition baseFreq : Q := 220.
Definition victoryDuration : Q := 25 # 10.
Definition harmonics : list Q := [1; 15 # 10; 2; 25 # 10; 3]%Q.

(** The [forEach] of [playVictory]: harmonic number [i] is handed to
    [setTimeout] with a delay of [i * 150] ms. *)
Fixpoint scheduleVoices (hs : list Q) (i : N) : Snd unit :=
  match hs with
  | [] => ret tt
  | harmonic :: rest =>
      setTimeout (VictoryVoice harmonic) (i * 150) ;;
      scheduleVoices rest (i + 1)
  end.

(** [playVictory()] *)
Definition playVictory : Snd unit :=
  init ;;
  this <- get ;;
  match audioCtx this with
  | None => ret tt
  | Some _ => scheduleVoices harmonics 0
  end.

(** [playCredits()] *)
Definition playCredits : Snd unit :=
  init ;;
  this <- get ;;
  match audioCtx this with
  | None => ret tt
  | Some _ =>
      createOscillator 660 sine (12 # 10) (2 # 100) ;;
      setTimeout (DeferredOscillator 440 sine (15 # 10) (2 # 100)) 100
  end.

(** What a timer does when it fires.  The victory voice reads
    [this.audioCtx] without a guard and never looks at [this.enabled]. *)
Definition fire (cb : callback) : Snd unit :=
  match cb with
  | DeferredOscillator freq type duration volume =>
      createOscillator freq type duration volume
  | VictoryVoice harmonic =>
      this <- get ;;
      match audioCtx this with
      | None => throw TypeError
      | Some _ =>
          call CreateOscillator ;;
          call CreateGain ;;
          call (SetOscType sine) ;;
          call (FrequencySetValueAtTime (baseFreq * harmonic) currentTime) ;;
          call (FrequencyExponentialRamp (baseFreq * harmonic * (15 # 10))
                  (currentTimePlus victoryDuration)) ;;
          call (GainSetValueAtTime 0 currentTime) ;;
          call (GainLinearRamp (5 # 100) (currentTimePlus (5 # 10))) ;;
          call (GainExponentialRamp (1 # 10000) (currentTimePlus victoryDuration)) ;;
          call OscConnectGain ;;
          call GainConnectDestination ;;
          call OscStart ;;
          call (OscStop (currentTimePlus victoryDuration))
      end
  end.

(** The trigger methods, as the application names them. *)
Inductive trigger :=
| PlayClick | PlayAdd | PlayToggle (completed : bool)
| PlayDelete | PlayVictory | PlayCredits.

Definition play (m : trigger) : Snd unit :=
  match m with
  | PlayClick => playClick
  | PlayAdd => playAdd
  | PlayToggle completed => playToggle completed
  | PlayDelete => playDelete
  | PlayVictory => playVictory
  | PlayCredits => playCredits
  end.

End Methods.

(** The audio-backend calls of a trace. *)
Fixpoint audio_calls (l : list effect) : list audio_call :=
  match l with
  | [] => []
  | Audio c :: r => c :: audio_calls r
  | SetTimeout _ _ :: r => audio_calls r
  end.

(** The timers a trace has set. *)
Fixpoint timers (l : list effect) : list callback :=
  match l with
  | [] => []
  | Audio _ :: r => timers r
  | SetTimeout cb _ :: r => cb :: timers r
  end.

(** *** The engine in use *)

(** What can happen to the engine: a trigger method is called, a timer
    it has set fires, or the switch is set. *)
Inductive request :=
| Trigger (m : trigger)
| TimerFires (cb : callback)
| SetEnabled (val : bool).

Definition perform (backend : Backend) (r : request) : Snd unit :=
  match r with
  | Trigger m => play backend m
  | TimerFires cb => fire backend cb
  | SetEnabled val => setEnabled val
  end.

(** Requests served one after the other; each is a turn of the event
    loop of its own, so one that throws does not stop the next.  The
    result is the engine at the end and everything that was attempted. *)
Fixpoint session (backend : Backend) (rs : list request) (e : t)
  : t * list effect :=
  match rs with
  | [] => (e, [])
  | r :: rest =>
      match perform backend r e with
      | (_, e1, l1) =>
          match session backend rest e1 with
          | (e2, l2) => (e2, l1 ++ l2)
          end
      end
  end.

(** A backend on which no call fails. *)
Definition reliable (backend : Backend) : Prop := forall c, backend c = None.

(** How many of the calls of a trace satisfy [p]. *)
Definition count (p : audio_call -> bool) (l : list effect) : nat :=
  length (filter p (audio_calls l)).

Definition isNewAudioContext (c : audio_call) : bool :=
  match c with NewAudioContext => true | _ => false end.
Definition isCreateOscillator (c : audio_call) : bool :=
  match c with CreateOscillator => true | _ => false end.
Definition isCreateGain (c : audio_call) : bool :=
  match c with CreateGain => true | _ => false end.
Definition isOscConnectGain (c : audio_call) : bool :=
  match c with OscConnectGain => true | _ => false end.
Definition isGainConnectDestination (c : audio_call) : bool :=
  match c with GainConnectDestination => true | _ => false end.
Definition isOscStart (c : audio_call) : bool :=
  match c with OscStart => true | _ => false end.
Definition isOscStop (c : audio_call) : bool :=
  match c with OscStop _ => true | _ => false end.

Definition isTrigger (r : request) : bool :=
  match r with Trigger _ => true | _ => false end.

(** The switch after a series of requests, if it was [b] before: only
    [setEnabled] sets it. *)
Definition switchAfter (rs : list request) (b : bool) : bool :=
  fold_left (fun b r => match r with SetEnabled val => val | _ => b end) rs b.

(** The delays of the timers a trace has set, in milliseconds. *)
Fixpoint delays (l : list effect) : list N :=
  match l with
  | [] => []
  | Audio _ :: r => delays r
  | SetTimeout _ ms :: r => ms :: delays r
  end.

(** Of a series of calls made one after the other on a backend: the
    exception of the first call that fails, if one does, and the calls
    that are reached, the failing one being the last. *)
Fixpoint firstFailure (backend : Backend) (l : list audio_call) : option exn :=
  match l with
  | [] => None
  | c :: r =>
      match backend c with
      | Some x => Some x
      | None => firstFailure backend r
      end
  end.

Fixpoint upToFailure (backend : Backend) (l : list audio_call)
  : list audio_call :=
  match l with
  | [] => []
  | c :: r =>
      c :: match backend c with
           | Some _ => []
           | None => upToFailure backend r
           end
  end.

End SoundEngine.

(* ===================================================================== *)
(** ** JavaScript numbers in arithmetic: IEEE-754 binary64 *)
(* ===================================================================== *)

Module Float64.

Definition prec : Z := 53.
Definition emax : Z := 1024.

Definition number := spec_float.

(** The Number value of an integer (exact below [2 ^ 53]). *)
Definition of_Z (z : Z) : number := binary_normalize prec emax z 0 false.
Definition of_nat (n : nat) : number := of_Z (Z.of_nat n).

(** [x / y] and [x * y], rounded to nearest, ties to even. *)
Definition div (x y : number) : number := SFdiv prec emax x y.
Definition mul (x y : number) : number := SFmul prec emax x y.

(** [Math.round(x)]: the integer nearest to [x], a tie going towards
    plus infinity; an integral [x], a NaN and an infinity are returned as
    they are, and a result of zero keeps the sign of [x]. *)
Definition Math_round (x : number) : number :=
  match x with
  | S754_finite s m e =>
      if 0 <=? e then x
      else
        let n := (2 * cond_Zopp s (Z.pos m) + 2 ^ (- e)) / 2 ^ (- e + 1) in
        if n =? 0 then S754_zero s else of_Z n
  | _ => x
  end.

(** [x + y] and [x - y], rounded to nearest, ties to even; [x < y] and
    [x <= y] (false when either is NaN). *)
Definition add (x y : number) : number := SFadd prec emax x y.
Definition sub (x y : number) : number := SFsub prec emax x y.
Definition ltb (x y : number) : bool := SFltb x y.
Definition leb (x y : number) : bool := SFleb x y.


End Float64.

(* ===================================================================== *)
(** ** JSON.stringify and JSON.parse *)
(* ===================================================================== *)

Module JSON.

(** A character of the JSON syntax, as a code unit. *)
Definition ch (a : ascii) : N := N_of_ascii a.

Definition quotation_mark : N := 34.
Definition reverse_solidus : N := 92.

(** A number, kept as the exact decimal its literal denotes: an integer,
    or [m * 10 ^ e] with [e < 0] and [m] not a multiple of ten.  The
    rounding of a literal to binary64 and the sign of zero are not
    represented; an integer below [2 ^ 53] in magnitude, such as a
    timestamp, is the same number either way. *)
Inductive number :=
| Integral (z : Z)
| Fractional (m : Z) (e : Z).

(** The values [JSON.parse] builds.  The members of an object are in
    property order. *)
#[local] Unset Elimination Schemes.
Inductive value :=
| Null
| Bool (b : bool)
| Number (n : number)
| String (s : jsstring)
| Array (l : list value)
| Object (members : list (jsstring * value)).
#[local] Set Elimination Schemes.

(** *** Numbers *)

Fixpoint uint_codes (u : Decimal.uint) : jsstring :=
  match u with
  | Decimal.Nil => []
  | Decimal.D0 r => 48%N :: uint_codes r
  | Decimal.D1 r => 49%N :: uint_codes r
  | Decimal.D2 r => 50%N :: uint_codes r
  | Decimal.D3 r => 51%N :: uint_codes r
  | Decimal.D4 r => 52%N :: uint_codes r
  | Decimal.D5 r => 53%N :: uint_codes r
  | Decimal.D6 r => 54%N :: uint_codes r
  | Decimal.D7 r => 55%N :: uint_codes r
  | Decimal.D8 r => 56%N :: uint_codes r
  | Decimal.D9 r => 57%N :: uint_codes r
  end.

(** The decimal digits of a natural number, most significant first. *)
Definition digits (n : N) : jsstring := uint_codes (N.to_uint n).

Definition isDigit (c : N) : bool := ((48 <=? c) && (c <=? 57))%N.

Fixpoint codes_uint (ds : jsstring) : Decimal.uint :=
  match ds with
  | [] => Decimal.Nil
  | c :: r =>
      let u := codes_uint r in
      if (c =? 48)%N then Decimal.D0 u
      else if (c =? 49)%N then Decimal.D1 u
      else if (c =? 50)%N then Decimal.D2 u
      else if (c =? 51)%N then Decimal.D3 u
      else if (c =? 52)%N then Decimal.D4 u
      else if (c =? 53)%N then Decimal.D5 u
      else if (c =? 54)%N then Decimal.D6 u
      else if (c =? 55)%N then Decimal.D7 u
      else if (c =? 56)%N then Decimal.D8 u
      else Decimal.D9 u
  end.

(** The number a string of decimal digits denotes. *)
Definition digits_value (ds : jsstring) : N := N.of_uint (codes_uint ds).

Fixpoint dropZeros (s : jsstring) : jsstring :=
  match s with
  | c :: r => if (c =? 48)%N then dropZeros r else s
  | [] => []
  end.

Definition stripTrailingZeros (ds : jsstring) : jsstring :=
  rev (dropZeros (rev ds)).

(** Scientific notation of [Number::toString]: the digits [ds] with the
    decimal point after the first, times ten to the [n - 1]. *)
Definition exponential (ds : jsstring) (n : Z) : jsstring :=
  match ds with
  | [] => []
  | d :: rest =>
      d :: (match rest with [] => [] | _ => ch "." :: rest end)
        ++ ch "e" :: (if 0 <=? n - 1 then ch "+" else ch "-")
        :: digits (Z.abs_N (n - 1))
  end.

Definition sign (z : Z) : jsstring := if z <? 0 then [ch "-"] else [].

(** [Number::toString] in radix 10. *)
Definition number_to_string (x : number) : jsstring :=
  match x with
  | Integral z =>
      let ds := digits (Z.abs_N z) in
      sign z ++
      (if Z.abs z <? 10 ^ 21 then ds
       else exponential (stripTrailingZeros ds) (Z.of_nat (length ds)))
  | Fractional m e =>
      let ds := digits (Z.abs_N m) in
      let n := Z.of_nat (length ds) + e in
      sign m ++
      (if (0 <? n) && (n <=? 21) then
         firstn (Z.to_nat n) ds ++ ch "." :: skipn (Z.to_nat n) ds
       else if (-6 <? n) && (n <=? 0) then
         ch "0" :: ch "." :: repeat (ch "0") (Z.to_nat (- n)) ++ ds
       else exponential ds n)
  end.

(** *** Strings *)

Definition hexDigit (n : N) : N := (if n <? 10 then 48 + n else 87 + n)%N.

(** [\uXXXX] with four lower-case hexadecimal digits. *)
Definition unicodeEscape (c : N) : jsstring :=
  [reverse_solidus; ch "u";
   hexDigit ((c / 4096) mod 16); hexDigit ((c / 256) mod 16);
   hexDigit ((c / 16) mod 16); hexDigit (c mod 16)]%N.

Definition isLeadingSurrogate (c : N) : bool := ((55296 <=? c) && (c <=? 56319))%N.
Definition isTrailingSurrogate (c : N) : bool := ((56320 <=? c) && (c <=? 57343))%N.

(** One code point that is not part of a surrogate pair. *)
Definition quoteUnit (c : N) : jsstring :=
  if (c =? 8)%N then [reverse_solidus; ch "b"]
  else if (c =? 9)%N then [reverse_solidus; ch "t"]
  else if (c =? 10)%N then [reverse_solidus; ch "n"]
  else if (c =? 12)%N then [reverse_solidus; ch "f"]
  else if (c =? 13)%N then [reverse_solidus; ch "r"]
  else if (c =? quotation_mark)%N then [reverse_solidus; quotation_mark]
  else if (c =? reverse_solidus)%N then [reverse_solidus; reverse_solidus]
  else if (c <? 32)%N || isLeadingSurrogate c || isTrailingSurrogate c
       then unicodeEscape c
  else [c].

(** The characters of [QuoteJSONString] between the quotation marks: the
    string is read by code points, so a well-formed surrogate pair is
    copied and a lone surrogate escaped. *)
Fixpoint quoteChars (s : jsstring) : jsstring :=
  match s with
  | [] => []
  | c :: r =>
      match r with
      | d :: r' =>
          if isLeadingSurrogate c && isTrailingSurrogate d
          then c :: d :: quoteChars r'
          else quoteUnit c ++ quoteChars r
      | [] => quoteUnit c
      end
  end.

Definition quote (s : jsstring) : jsstring :=
  quotation_mark :: quoteChars s ++ [quotation_mark].

(** *** JSON.stringify *)

Fixpoint join (sep : jsstring) (l : list jsstring) : jsstring :=
  match l with
  | [] => []
  | x :: r => match r with [] => x | _ => x ++ sep ++ join sep r end
  end.

Fixpoint stringify (v : value) : jsstring :=
  match v with
  | Null => lit "null"
  | Bool true => lit "true"
  | Bool false => lit "false"
  | Number n => number_to_string n
  | String s => quote s
  | Array l => ch "[" :: join [ch ","] (List.map stringify l) ++ [ch "]"]
  | Object members =>
      ch "{" ::
      join [ch ","]
        (List.map (fun kv => quote (fst kv) ++ ch ":" :: stringify (snd kv)) members)
      ++ [ch "}"]
  end.

(** *** JSON.parse *)

Definition isJSONWhiteSpace (c : N) : bool :=
  ((c =? 9) || (c =? 10) || (c =? 13) || (c =? 32))%N.

Fixpoint skipWhiteSpace (s : jsstring) : jsstring :=
  match s with
  | c :: r => if isJSONWhiteSpace c then skipWhiteSpace r else s
  | [] => []
  end.

Definition hexValue (c : N) : option N :=
  if isDigit c then Some (c - 48)%N
  else if ((97 <=? c) && (c <=? 102))%N then Some (c - 87)%N
  else if ((65 <=? c) && (c <=? 70))%N then Some (c - 55)%N
  else None.

Definition hex4 (a b c d : N) : option N :=
  match hexValue a, hexValue b, hexValue c, hexValue d with
  | Some x, Some y, Some z, Some w => Some (4096 * x + 256 * y + 16 * z + w)%N
  | _, _, _, _ => None
  end.

(** The character an escape letter stands for. *)
Definition simpleEscape (e : N) : option N :=
  if (e =? quotation_mark)%N then Some quotation_mark
  else if (e =? reverse_solidus)%N then Some reverse_solidus
  else if (e =? ch "/")%N then Some (ch "/")
  else if (e =? ch "b")%N then Some 8%N
  else if (e =? ch "f")%N then Some 12%N
  else if (e =? ch "n")%N then Some 10%N
  else if (e =? ch "r")%N then Some 13%N
  else if (e =? ch "t")%N then Some 9%N
  else None.

(** The characters of a string literal after its opening quotation mark,
    up to and including the closing one. *)
Fixpoint parseChars (s : jsstring) : option (jsstring * jsstring) :=
  match s with
  | [] => None
  | c :: r =>
      if (c =? quotation_mark)%N then Some ([], r)
      else if (c =? reverse_solidus)%N then
        match r with
        | [] => None
        | e :: r1 =>
            if (e =? ch "u")%N then
              match r1 with
              | h1 :: h2 :: h3 :: h4 :: r2 =>
                  match hex4 h1 h2 h3 h4, parseChars r2 with
                  | Some u, Some (str, rest) => Some (u :: str, rest)
                  | _, _ => None
                  end
              | _ => None
              end
            else
              match simpleEscape e, parseChars r1 with
              | Some u, Some (str, rest) => Some (u :: str, rest)
              | _, _ => None
              end
        end
      else if (c <? 32)%N then None
      else
        match parseChars r with
        | Some (str, rest) => Some (c :: str, rest)
        | None => None
        end
  end.

(** The longest prefix of decimal digits, and what follows it. *)
Fixpoint takeDigits (s : jsstring) : jsstring * jsstring :=
  match s with
  | c :: r =>
      if isDigit c then let (ds, rest) := takeDigits r in (c :: ds, rest)
      else ([], s)
  | [] => ([], [])
  end.

(** [m * 10 ^ e] with the trailing zeros of [m] moved into the exponent
    for as long as the exponent is negative. *)
Fixpoint reduce (fuel : nat) (m e : Z) : Z * Z :=
  match fuel with
  | O => (m, e)
  | S fuel' =>
      if (e <? 0) && (m mod 10 =? 0) then reduce fuel' (m / 10) (e + 1)
      else (m, e)
  end.

Definition decimal (m e : Z) : number :=
  if m =? 0 then Integral 0
  else if 0 <=? e then Integral (m * 10 ^ e)
  else
    let (m', e') := reduce (Z.to_nat (- e)) m e in
    if 0 <=? e' then Integral m' else Fractional m' e'.

(** The optional sign of an exponent: whether it is a minus, and what
    follows it. *)
Definition parseSign (s : jsstring) : bool * jsstring :=
  match s with
  | d :: r =>
      if (d =? ch "-")%N then (true, r)
      else if (d =? ch "+")%N then (false, r)
      else (false, s)
  | [] => (false, s)
  end.

(** The optional exponent part: its value and what follows it. *)
Definition parseExponent (s : jsstring) : option (Z * jsstring) :=
  match s with
  | c :: r =>
      if ((c =? ch "e") || (c =? ch "E"))%N then
        let (negative, r1) := parseSign r in
        match takeDigits r1 with
        | ([], _) => None
        | (ds, rest) =>
            let x := Z.of_N (digits_value ds) in
            Some (if negative then - x else x, rest)
        end
      else Some (0, s)
  | [] => Some (0, s)
  end.

(** The optional fraction part: its digits and what follows it. *)
Definition parseFraction (s : jsstring) : option (jsstring * jsstring) :=
  match s with
  | c :: r =>
      if (c =? ch ".")%N then
        match takeDigits r with
        | ([], _) => None
        | (ds, rest) => Some (ds, rest)
        end
      else Some ([], s)
  | [] => Some ([], s)
  end.

(** The integer part: a single zero, or digits that start with a
    non-zero one. *)
Definition parseInt (s : jsstring) : option (jsstring * jsstring) :=
  match s with
  | c :: r =>
      if (c =? ch "0")%N then Some ([c], r)
      else
        match takeDigits s with
        | ([], _) => None
        | (ds, rest) => Some (ds, rest)
        end
  | [] => None
  end.

(** The optional minus sign: whether it is there, and what follows it. *)
Definition parseMinus (s : jsstring) : bool * jsstring :=
  match s with
  | c :: r => if (c =? ch "-")%N then (true, r) else (false, s)
  | [] => (false, s)
  end.

Definition parseNumber (s : jsstring) : option (number * jsstring) :=
  let (negative, s1) := parseMinus s in
  match parseInt s1 with
  | None => None
  | Some (int, s2) =>
      match parseFraction s2 with
      | None => None
      | Some (frac, s3) =>
          match parseExponent s3 with
          | None => None
          | Some (x, rest) =>
              let m := Z.of_N (digits_value (int ++ frac)) in
              Some (decimal (if negative then - m else m)
                      (x - Z.of_nat (length frac)), rest)
          end
      end
  end.

(** [s] without its prefix [p], if it has it. *)
Fixpoint stripPrefix (p s : jsstring) : option jsstring :=
  match p, s with
  | [], _ => Some s
  | a :: p', b :: s' => if (a =? b)%N then stripPrefix p' s' else None
  | _ :: _, [] => None
  end.

(** The index a property key denotes, if it is a canonical array index:
    such keys come first in property order, by value. *)
Definition arrayIndex (k : jsstring) : option N :=
  match k with
  | [] => None
  | c :: r =>
      if forallb isDigit k && negb ((c =? 48)%N && negb (Nat.eqb (length r) 0))
         && Nat.leb (length k) 10
      then
        let n := digits_value k in
        if (n <? 4294967295)%N then Some n else None
      else None
  end.

Fixpoint replaceMember (k : jsstring) (v : value) (l : list (jsstring * value))
  : option (list (jsstring * value)) :=
  match l with
  | [] => None
  | (k', v') :: r =>
      if jsstring_eqb k k' then Some ((k', v) :: r)
      else
        match replaceMember k v r with
        | Some r' => Some ((k', v') :: r')
        | None => None
        end
  end.

Fixpoint insertIndexed (i : N) (k : jsstring) (v : value)
  (l : list (jsstring * value)) : list (jsstring * value) :=
  match l with
  | [] => [(k, v)]
  | (k', v') :: r =>
      match arrayIndex k' with
      | Some j => if (j <? i)%N then (k', v') :: insertIndexed i k v r
                  else (k, v) :: l
      | None => (k, v) :: l
      end
  end.

(** [CreateDataProperty] on the object under construction: a key that is
    already there keeps its place and takes the new value. *)
Definition defineMember (k : jsstring) (v : value) (l : list (jsstring * value))
  : list (jsstring * value) :=
  match replaceMember k v l with
  | Some l' => l'
  | None =>
      match arrayIndex k with
      | Some i => insertIndexed i k v l
      | None => l ++ [(k, v)]
      end
  end.

Inductive parsed :=
| Parsed (v : value) (rest : jsstring)
| Malformed
| OutOfFuel.

(** A value and what follows it.  [parseElements] reads the elements of
    an array after its opening bracket, [parseMembers] the members of an
    object after its opening brace. *)
Fixpoint parseValue (fuel : nat) (s : jsstring) {struct fuel} : parsed :=
  match fuel with
  | O => OutOfFuel
  | S fuel' =>
      match skipWhiteSpace s with
      | [] => Malformed
      | c :: r =>
          if (c =? ch "[")%N then
            match skipWhiteSpace r with
            | [] => Malformed
            | c' :: r' =>
                if (c' =? ch "]")%N then Parsed (Array []) r'
                else parseElements fuel' r []
            end
          else if (c =? ch "{")%N then
            match skipWhiteSpace r with
            | [] => Malformed
            | c' :: r' =>
                if (c' =? ch "}")%N then Parsed (Object []) r'
                else parseMembers fuel' r []
            end
          else if (c =? quotation_mark)%N then
            match parseChars r with
            | Some (str, rest) => Parsed (String str) rest
            | None => Malformed
            end
          else if (c =? ch "t")%N then
            match stripPrefix (lit "rue") r with
            | Some rest => Parsed (Bool true) rest
            | None => Malformed
            end
          else if (c =? ch "f")%N then
            match stripPrefix (lit "alse") r with
            | Some rest => Parsed (Bool false) rest
            | None => Malformed
            end
          else if (c =? ch "n")%N then
            match stripPrefix (lit "ull") r with
            | Some rest => Parsed Null rest
            | None => Malformed
            end
          else
            match parseNumber (c :: r) with
            | Some (n, rest) => Parsed (Number n) rest
            | None => Malformed
            end
      end
  end

with parseElements (fuel : nat) (s : jsstring) (acc : list value)
  {struct fuel} : parsed :=
  match fuel with
  | O => OutOfFuel
  | S fuel' =>
      match parseValue fuel' s with
      | Parsed v r =>
          match skipWhiteSpace r with
          | [] => Malformed
          | c :: r' =>
              if (c =? ch ",")%N then parseElements fuel' r' (v :: acc)
              else if (c =? ch "]")%N then Parsed (Array (rev (v :: acc))) r'
              else Malformed
          end
      | Malformed => Malformed
      | OutOfFuel => OutOfFuel
      end
  end

with parseMembers (fuel : nat) (s : jsstring) (acc : list (jsstring * value))
  {struct fuel} : parsed :=
  match fuel with
  | O => OutOfFuel
  | S fuel' =>
      match skipWhiteSpace s with
      | [] => Malformed
      | q :: r =>
          if (q =? quotation_mark)%N then
            match parseChars r with
            | None => Malformed
            | Some (k, r1) =>
                match skipWhiteSpace r1 with
                | [] => Malformed
                | c :: r2 =>
                    if (c =? ch ":")%N then
                      match parseValue fuel' r2 with
                      | Parsed v r3 =>
                          match skipWhiteSpace r3 with
                          | [] => Malformed
                          | c' :: r4 =>
                              if (c' =? ch ",")%N
                              then parseMembers fuel' r4 (defineMember k v acc)
                              else if (c' =? ch "}")%N
                              then Parsed (Object (defineMember k v acc)) r4
                              else Malformed
                          end
                      | Malformed => Malformed
                      | OutOfFuel => OutOfFuel
                      end
                    else Malformed
                end
            end
          else Malformed
      end
  end.

(** What may follow the digits of a number without being taken for more
    digits, and what may follow a number without being taken for part of
    it. *)
Definition endsDigits (tail : jsstring) : Prop :=
  match tail with
  | [] => True
  | c :: _ => isDigit c = false
  end.

Definition endsNumber (tail : jsstring) : Prop :=
  match tail with
  | [] => True
  | c :: _ => isDigit c = false /\ (c =? ch ".")%N = false
              /\ (c =? ch "e")%N = false /\ (c =? ch "E")%N = false
  end.

(** The integers that [Number::toString] writes without an exponent. *)
Definition plainDecimal (z : Z) : Prop := Z.abs z < 10 ^ 21.

(** A parser that, when it succeeds, has consumed some input. *)
Definition consumes (p : jsstring -> parsed) : Prop :=
  forall s v rest, p s = Parsed v rest -> (length rest < length s)%nat.

(** [JSON.parse(text)]: one value, white space around it, nothing else.
    Malformed text throws a [SyntaxError].  The fuel is twice the length
    of the text and is never used up (lemma [parse_fuel]). *)
Definition parse (text : jsstring) : outcome value :=
  match parseValue (2 * length text + 1) text with
  | Parsed v rest =>
      match skipWhiteSpace rest with
      | [] => Returned v
      | _ :: _ => Threw SyntaxError
      end
  | Malformed => Threw SyntaxError
  | OutOfFuel => Threw SyntaxError
  end.

End JSON.

(* ===================================================================== *)
(** ** TodoApp.jsx: the task list and its handlers *)
(* ===================================================================== *)

Module Todo.

(** The three values the priority button cycles through:
    [const levels = ['Low', 'Medium', 'High']]. *)
Inductive Priority := Low | Medium | High.

Definition levels : list Priority := [Low; Medium; High].

Definition name (p : Priority) : jsstring :=
  match p with
  | Low => lit "Low"
  | Medium => lit "Medium"
  | High => lit "High"
  end.

(** A todo object: [{ id, text, completed, priority }]. *)
Record t := { id : Z; text : jsstring; completed : bool; priority : Priority }.

(** [{ ...todo, completed: !todo.completed }] *)
Definition flip (todo : t) : t :=
  {| id := id todo; text := text todo;
     completed := negb (completed todo); priority := priority todo |}.

End Todo.

Module TodoApp.

Import SoundEngine.

(** The state of the component that the handlers read and write, and the
    [soundEngine] singleton they call. *)
Record State := {
  todos : list Todo.t;
  inputValue : jsstring;
  priority : Todo.Priority;
  soundEngine : SoundEngine.t
}.

(** The state of a first visit: nothing saved, empty input, 'Medium'. *)
Definition initial : State :=
  {| todos := []; inputValue := []; priority := Todo.Medium;
     soundEngine := SoundEngine.new |}.

(** What a handler does, in order: the trigger methods it invokes on the
    sound engine, and what those do in turn. *)
Inductive event :=
| Invoke (m : trigger)
| Engine (e : effect).

Definition App (A : Type) : Type := Eff State event A.

Definition setTodos (l : list Todo.t) : App unit :=
  fun s => (Returned tt,
            {| todos := l; inputValue := inputValue s;
               priority := priority s; soundEngine := soundEngine s |}, []).

Definition setInputValue (v : jsstring) : App unit :=
  fun s => (Returned tt,
            {| todos := todos s; inputValue := v;
               priority := priority s; soundEngine := soundEngine s |}, []).

Definition setPriority (p : Todo.Priority) : App unit :=
  fun s => (Returned tt,
            {| todos := todos s; inputValue := inputValue s;
               priority := p; soundEngine := soundEngine s |}, []).

Section Handlers.

Variable backend : Backend.

(** A call [soundEngine.m()] from the component. *)
Definition callSound (m : trigger) : App unit :=
  fun s =>
    match play backend m (soundEngine s) with
    | (o, e, l) =>
        (o,
         {| todos := todos s; inputValue := inputValue s;
            priority := priority s; soundEngine := e |},
         Invoke m :: List.map Engine l)
    end.

(** [addTodo], run at clock reading [now = Date.now()].  [cur] is the
    state of the render the handler closes over. *)
Definition addTodo (now : Z) (cur : State) : App unit :=
  if jsstring_eqb (trim (inputValue cur)) [] then ret tt
  else
    let newTodo :=
      {| Todo.id := now; Todo.text := inputValue cur;
         Todo.completed := false; Todo.priority := priority cur |} in
    setTodos (newTodo :: todos cur) ;;
    setInputValue [] ;;
    callSound PlayAdd.

(** [toggleTodo(id)] *)
Definition toggleTodo (id : Z) (cur : State) : App unit :=
  let todoToToggle := find (fun t => Todo.id t =? id) (todos cur) in
  match todoToToggle with
  | Some t => callSound (PlayToggle (negb (Todo.completed t)))
  | None => ret tt
  end ;;
  setTodos
    (List.map (fun todo => if Todo.id todo =? id then Todo.flip todo else todo)
       (todos cur)).

(** [deleteTodo(id)] *)
Definition deleteTodo (id : Z) (cur : State) : App unit :=
  callSound PlayDelete ;;
  setTodos (filter (fun todo => negb (Todo.id todo =? id)) (todos cur)).

(** [onReorder={setTodos}]: the list handed over by the drag-and-drop
    group replaces the current one. *)
Definition reorder (newOrder : list Todo.t) (cur : State) : App unit :=
  setTodos newOrder.

(** The "Clear Finished Tasks" button: [setTodos([])]. *)
Definition clearFinished (cur : State) : App unit :=
  setTodos [].

(** The [onChange] of the text input. *)
Definition changeInput (v : jsstring) (cur : State) : App unit :=
  setInputValue v.

(** The priority button:
    [levels[(levels.indexOf(priority) + 1) % levels.length]]. *)
Definition indexOf (p : Todo.Priority) : nat :=
  match p with Todo.Low => 0 | Todo.Medium => 1 | Todo.High => 2 end.

Definition nextPriority (p : Todo.Priority) : Todo.Priority :=
  nth ((indexOf p + 1) mod length Todo.levels) Todo.levels Todo.Medium.

Definition changePriority (cur : State) : App unit :=
  setPriority (nextPriority (priority cur)).

(** One user action. *)
Inductive action :=
| ChangeInput (v : jsstring)
| ChangePriority
| AddTodo (now : Z)
| ToggleTodo (id : Z)
| DeleteTodo (id : Z)
| Reorder (newOrder : list Todo.t)
| ClearFinished.

Definition handler (a : action) : State -> App unit :=
  match a with
  | ChangeInput v => changeInput v
  | ChangePriority => changePriority
  | AddTodo now => addTodo now
  | ToggleTodo id => toggleTodo id
  | DeleteTodo id => deleteTodo id
  | Reorder newOrder => reorder newOrder
  | ClearFinished => clearFinished
  end.

(** Running a handler on the current state: the handler reads the state
    it closes over and its writes make the next state.  A handler that
    throws keeps the writes it made before. *)
Definition dispatch (a : action) (s : State) : outcome unit * State * list event :=
  handler a s s.

Definition step (a : action) (s : State) : State := final (dispatch a s).

(** A session: the actions of the user, one after the other. *)
Fixpoint run (l : list action) (s : State) : State :=
  match l with
  | [] => s
  | a :: r => run r (step a s)
  end.

End Handlers.

(** The trigger methods a handler invoked. *)
Fixpoint invoked (l : list event) : list trigger :=
  match l with
  | [] => []
  | Invoke m :: r => m :: invoked r
  | Engine _ :: r => invoked r
  end.

Definition ids (l : list Todo.t) : list Z := List.map Todo.id l.

(** The lists [toggleTodo(id)] and [deleteTodo(id)] hand to [setTodos]. *)
Definition toggled (id : Z) (l : list Todo.t) : list Todo.t :=
  List.map (fun todo => if Todo.id todo =? id then Todo.flip todo else todo) l.

Definition without (id : Z) (l : list Todo.t) : list Todo.t :=
  filter (fun todo => negb (Todo.id todo =? id)) l.

(** What one toggle of [id] may do to a todo: nothing but negate the
    [completed] field of a todo whose id is [id]. *)
Definition toggledFrom (id : Z) (before after : Todo.t) : Prop :=
  Todo.id after = Todo.id before /\
  Todo.text after = Todo.text before /\
  Todo.priority after = Todo.priority before /\
  Todo.completed after =
    (if Todo.id before =? id then negb (Todo.completed before)
     else Todo.completed before).

(** *** Derived state *)

Definition totalTasks (todos : list Todo.t) : nat := length todos.

Definition completedTasks (todos : list Todo.t) : nat :=
  length (filter (fun todo => Todo.completed todo) todos).

(** [totalTasks === 0 ? 0 : Math.round((completedTasks / totalTasks) * 100)],
    an expression over the two constants above. *)
Definition progressPercentage (completedTasks totalTasks : nat) : Float64.number :=
  if Nat.eqb totalTasks 0 then Float64.of_Z 0
  else
    Float64.Math_round
      (Float64.mul
         (Float64.div (Float64.of_nat completedTasks) (Float64.of_nat totalTasks))
         (Float64.of_Z 100)).

Record Stats := { total : nat; completed : nat; percentage : Float64.number }.

Definition stats (todos : list Todo.t) : Stats :=
  {| total := totalTasks todos;
     completed := completedTasks todos;
     percentage := progressPercentage (completedTasks todos) (totalTasks todos) |}.




(** The victory badge and the "Clear Finished Tasks" button are shown
    when [progressPercentage === 100 && totalTasks > 0]. *)
Definition goalAchieved (todos : list Todo.t) : bool :=
  SFeqb (percentage (stats todos)) (Float64.of_Z 100)
  && Nat.ltb 0 (totalTasks todos).

(** *** Persistence *)

(** The todo object as a JavaScript value, its properties in the order
    the object literal of [addTodo] creates them (the spread of
    [toggleTodo] keeps that order). *)
Definition todoValue (todo : Todo.t) : JSON.value :=
  JSON.Object
    [(lit "id", JSON.Number (JSON.Integral (Todo.id todo)));
     (lit "text", JSON.String (Todo.text todo));
     (lit "completed", JSON.Bool (Todo.completed todo));
     (lit "priority", JSON.String (Todo.name (Todo.priority todo)))].

Definition todosValue (todos : list Todo.t) : JSON.value :=
  JSON.Array (List.map todoValue todos).

(** The persistence effect: the string that
    [localStorage.setItem('react-todo-list', JSON.stringify(todos))]
    writes. *)
Definition persisted (todos : list Todo.t) : jsstring :=
  JSON.stringify (todosValue todos).

(** The initializer of the [todos] state, given what
    [localStorage.getItem('react-todo-list')] returned ([None] for
    [null]):  [savedTodos ? JSON.parse(savedTodos) : []].  The empty
    string is falsy. *)
Definition loadTodos (savedTodos : option jsstring) : outcome JSON.value :=
  match savedTodos with
  | None => Returned (JSON.Array [])
  | Some [] => Returned (JSON.Array [])
  | Some text => JSON.parse text
  end.

(** Reading a loaded value back as a list of todo objects. *)
Definition priorityOfName (s : jsstring) : option Todo.Priority :=
  if jsstring_eqb s (lit "Low") then Some Todo.Low
  else if jsstring_eqb s (lit "Medium") then Some Todo.Medium
  else if jsstring_eqb s (lit "High") then Some Todo.High
  else None.

Definition todoOfValue (v : JSON.value) : option Todo.t :=
  match v with
  | JSON.Object
      [(k1, JSON.Number (JSON.Integral i)); (k2, JSON.String s);
       (k3, JSON.Bool c); (k4, JSON.String p)] =>
      if jsstring_eqb k1 (lit "id") && jsstring_eqb k2 (lit "text")
         && jsstring_eqb k3 (lit "completed") && jsstring_eqb k4 (lit "priority")
      then
        match priorityOfName p with
        | Some pr =>
            Some {| Todo.id := i; Todo.text := s;
                    Todo.completed := c; Todo.priority := pr |}
        | None => None
        end
      else None
  | _ => None
  end.

Fixpoint todosOfValues (l : list JSON.value) : option (list Todo.t) :=
  match l with
  | [] => Some []
  | v :: r =>
      match todoOfValue v, todosOfValues r with
      | Some t, Some ts => Some (t :: ts)
      | _, _ => None
      end
  end.

Definition todosOfValue (v : JSON.value) : option (list Todo.t) :=
  match v with
  | JSON.Array l => todosOfValues l
  | _ => None
  end.

(** *** Sessions *)

(** The range of [Date.now()]: a time value is an integral number of
    milliseconds within 8.64e15 of the epoch. *)
Definition isTimeValue (now : Z) : Prop := Z.abs now <= 8640000000000000.

(** Every id in the list is a reading of the clock. *)
Definition timeStamped (todos : list Todo.t) : Prop :=
  Forall (fun todo => isTimeValue (Todo.id todo)) todos.

(** What the environment guarantees about an action: the clock returns
    a time value, and the drag-and-drop group hands over the current
    items in a new order. *)
Definition clockReads (a : action) (s : State) : Prop :=
  match a with
  | AddTodo now => isTimeValue now
  | _ => True
  end.

Definition reorderPermutes (a : action) (s : State) : Prop :=
  match a with
  | Reorder newOrder => Permutation newOrder (todos s)
  | _ => True
  end.

Definition wellFormed (a : action) (s : State) : Prop :=
  clockReads a s /\ reorderPermutes a s.

(** The clock has moved on since every todo in the list was created. *)
Definition freshClock (a : action) (s : State) : Prop :=
  match a with
  | AddTodo now => ~ In now (ids (todos s))
  | _ => True
  end.

(** The states a session reaches from a first visit when every action
    satisfies [ok]. *)
Inductive reachable (backend : Backend) (ok : action -> State -> Prop)
  : State -> Prop :=
| reachable_initial : reachable backend ok initial
| reachable_step a s :
    reachable backend ok s -> ok a s -> reachable backend ok (step backend a s).

(** The condition of the badge, as an expression over the two derived
    constants. *)
Definition goalOf (completedTasks totalTasks : nat) : bool :=
  SFeqb (progressPercentage completedTasks totalTasks) (Float64.of_Z 100)
  && Nat.ltb 0 totalTasks.

(** A session without reorderings in which the clock of every add is
    later than the id of every todo in the list. *)
Definition laterClock (a : action) (s : State) : Prop :=
  match a with
  | AddTodo now => forall i, In i (ids (todos s)) -> i < now
  | Reorder _ => False
  | _ => True
  end.

End TodoApp.

(* ===================================================================== *)
(** ** TodoApp.jsx: the keyboard, the loading screen, the celebration *)
(* ===================================================================== *)

Module Keyboard.

Import SoundEngine TodoApp.

(** [handleKeyPress(e)], with [key = e.key]: Enter adds the todo. *)
Definition handleKeyPress (backend : Backend) (key : jsstring) (now : Z)
  (cur : State) : App unit :=
  if jsstring_eqb key (lit "Enter") then addTodo backend now cur else ret tt.

(** The state after a key press in the text input. *)
Definition press (backend : Backend) (key : jsstring) (now : Z) (s : State)
  : State :=
  final (handleKeyPress backend key now s s).

End Keyboard.

Module LoadingScreen.

Definition duration : Float64.number := Float64.of_Z 2500.
Definition intervalTime : Float64.number := Float64.of_Z 50.

(** [100 / (duration / intervalTime)] *)
Definition increment : Float64.number :=
  Float64.div (Float64.of_Z 100) (Float64.div duration intervalTime).

(** [loading], [loadingProgress], and whether [progressInterval] is
    still set. *)
Record State := {
  loading : bool;
  loadingProgress : Float64.number;
  progressInterval : bool
}.

(** The component when it mounts: the states at their initial values and
    the interval set. *)
Definition mount : State :=
  {| loading := true; loadingProgress := Float64.of_Z 0;
     progressInterval := true |}.

(** One period of the interval: the updater handed to
    [setLoadingProgress].  A cleared interval does not fire. *)
Definition tick (s : State) : State :=
  if progressInterval s then
    if Float64.leb (Float64.of_Z 100) (loadingProgress s) then
      {| loading := false; loadingProgress := Float64.of_Z 100;
         progressInterval := false |}
    else
      {| loading := loading s;
         loadingProgress := Float64.add (loadingProgress s) increment;
         progressInterval := true |}
  else s.

Fixpoint ticks (n : nat) (s : State) : State :=
  match n with
  | O => s
  | S k => ticks k (tick s)
  end.

End LoadingScreen.

Module Celebration.

Import SoundEngine.

Inductive kind := streak | bit.

(** A particle object.  [ref] stands for the identity of the object,
    which is what [newParticles.includes(p)] compares. *)
Record Particle := {
  ref : nat;
  id : Z;
  type : kind;
  x : Float64.number;
  y : Float64.number;
  rotation : Float64.number;
  scale : Float64.number;
  color : jsstring;
  duration : Float64.number
}.

Record Shockwave := { shockwaveId : Z }.

(** The states [triggerBurst] writes, the allocator of object
    identities, and the sound engine its timer calls. *)
Record State := {
  particles : list Particle;
  shockwaves : list Shockwave;
  impact : bool;
  showCelebration : bool;
  nextRef : nat;
  soundEngine : SoundEngine.t
}.

(** The bodies of the arrow functions [triggerBurst] hands to
    [setTimeout]. *)
Inductive task :=
| ImpactOff
| Celebrate
| CelebrationOff
| RemoveParticles (newParticles : list Particle)
| RemoveShockwave (newShockwave : Shockwave).

Definition half : Float64.number := Float64.div (Float64.of_Z 1) (Float64.of_Z 2).
Definition sixTenths : Float64.number := Float64.div (Float64.of_Z 6) (Float64.of_Z 10).
Definition eightTenths : Float64.number := Float64.div (Float64.of_Z 8) (Float64.of_Z 10).

(** The callback of [map] for index [i]: [random k] is the [k]-th value
    [Math.random()] returns and [now] what [Date.now()] returns in this
    call.  The result is the particle and the number of random values
    used up. *)
Definition makeParticle (random : nat -> Float64.number) (k : nat) (now : Z)
  (i : nat) (r : nat) : Particle * nat :=
  let isStreak := Float64.ltb sixTenths (random k) in
  let x := Float64.mul (Float64.sub (random (k + 1)%nat) half)
             (Float64.of_Z (if isStreak then 400 else 250)) in
  let y := Float64.mul (Float64.sub (random (k + 2)%nat) half)
             (Float64.of_Z (if isStreak then 100 else 250)) in
  let rotation :=
    if isStreak then Float64.of_Z 0
    else Float64.mul (random (k + 3)%nat) (Float64.of_Z 360) in
  let k' := (if isStreak then k + 3 else k + 4)%nat in
  let scale := Float64.add (Float64.mul (random k') half) half in
  let color :=
    if Float64.ltb half (random (k' + 1)%nat) then lit "#00ff88"
    else lit "#61dafb" in
  ({| ref := r; id := now + Z.of_nat i;
      type := if isStreak then streak else bit;
      x := x; y := y; rotation := rotation; scale := scale; color := color;
      duration := if isStreak then sixTenths else eightTenths |},
   (k' + 2)%nat).

(** [Array.from({ length: n }).map(...)], from index [i] on: [clock j]
    is what the [j]-th call of [Date.now()] returns. *)
Fixpoint makeParticles (random : nat -> Float64.number) (clock : nat -> Z)
  (n : nat) (k : nat) (i : nat) (r : nat) : list Particle :=
  match n with
  | O => []
  | S n' =>
      match makeParticle random k (clock i) i r with
      | (p, k') => p :: makeParticles random clock n' k' (S i) (S r)
      end
  end.

(** [triggerBurst()]: the new state and the timers set, with their
    delays in milliseconds, in the order of the calls of [setTimeout]. *)
Definition triggerBurst (random : nat -> Float64.number) (clock : nat -> Z)
  (s : State) : State * list (task * N) :=
  let newParticles := makeParticles random clock 20 0 0 (nextRef s) in
  let newShockwave := {| shockwaveId := clock 20%nat |} in
  ({| particles := particles s ++ newParticles;
      shockwaves := shockwaves s ++ [newShockwave];
      impact := true;
      showCelebration := showCelebration s;
      nextRef := (nextRef s + 20)%nat;
      soundEngine := soundEngine s |},
   [(ImpactOff, 300%N); (Celebrate, 400%N); (CelebrationOff, 6500%N);
    (RemoveParticles newParticles, 1000%N);
    (RemoveShockwave newShockwave, 800%N)]).

(** [newParticles.includes(p)] *)
Definition includes (newParticles : list Particle) (p : Particle) : bool :=
  existsb (fun q => Nat.eqb (ref q) (ref p)) newParticles.

(** What a timer of [triggerBurst] does when it fires: the new state and
    what the sound engine did. *)
Definition run (backend : Backend) (t : task) (s : State)
  : State * list effect :=
  match t with
  | ImpactOff =>
      ({| particles := particles s; shockwaves := shockwaves s;
          impact := false; showCelebration := showCelebration s;
          nextRef := nextRef s; soundEngine := soundEngine s |}, [])
  | Celebrate =>
      match play backend PlayVictory (soundEngine s) with
      | (_, e, l) =>
          ({| particles := particles s; shockwaves := shockwaves s;
              impact := impact s; showCelebration := true;
              nextRef := nextRef s; soundEngine := e |}, l)
      end
  | CelebrationOff =>
      ({| particles := particles s; shockwaves := shockwaves s;
          impact := impact s; showCelebration := false;
          nextRef := nextRef s; soundEngine := soundEngine s |}, [])
  | RemoveParticles newParticles =>
      ({| particles := filter (fun p => negb (includes newParticles p)) (particles s);
          shockwaves := shockwaves s;
          impact := impact s; showCelebration := showCelebration s;
          nextRef := nextRef s; soundEngine := soundEngine s |}, [])
  | RemoveShockwave newShockwave =>
      ({| particles := particles s;
          shockwaves :=
            filter (fun w => negb (shockwaveId w =? shockwaveId newShockwave))
              (shockwaves s);
          impact := impact s; showCelebration := showCelebration s;
          nextRef := nextRef s; soundEngine := soundEngine s |}, [])
  end.

(** Timers in the order in which they fire: by delay, and for equal
    delays in the order in which they were set. *)
Fixpoint insertByDelay (t : task * N) (l : list (task * N)) : list (task * N) :=
  match l with
  | [] => [t]
  | u :: r => if (snd t <=? snd u)%N then t :: l else u :: insertByDelay t r
  end.

Definition inFiringOrder (l : list (task * N)) : list (task * N) :=
  fold_right insertByDelay [] l.

Fixpoint runAll (backend : Backend) (l : list (task * N)) (s : State) : State :=
  match l with
  | [] => s
  | (t, _) :: r => runAll backend r (fst (run backend t s))
  end.

(** The particles of the state are distinct objects, and none has an
    identity the allocator has yet to hand out. *)
Definition allocated (s : State) : Prop :=
  NoDup (List.map ref (particles s))
  /\ Forall (fun p => (ref p < nextRef s)%nat) (particles s).

End Celebration.

(* ===================================================================== *)
(** ** Sample data *)

(** Two todos, a state of the component that holds them, and a component
    at rest, for use at concrete inputs. *)
Module Sample.

Definition milk : Todo.t :=
  {| Todo.id := 7; Todo.text := JS.lit "Buy milk";
     Todo.completed := false; Todo.priority := Todo.Medium |}.

Definition alice : Todo.t :=
  {| Todo.id := 5; Todo.text := JS.lit "Call Alice";
     Todo.completed := true; Todo.priority := Todo.High |}.

Definition visit : TodoApp.State :=
  {| TodoApp.todos := [milk; alice]; TodoApp.inputValue := JS.lit "Pay rent";
     TodoApp.priority := Todo.Low; TodoApp.soundEngine := SoundEngine.new |}.

Definition quiet : Celebration.State :=
  {| Celebration.particles := []; Celebration.shockwaves := [];
     Celebration.impact := false; Celebration.showCelebration := false;
     Celebration.nextRef := 0; Celebration.soundEngine := SoundEngine.new |}.

(** A random source that always returns 0.5 and a clock that stands
    still at 1000. *)
Definition steady (k : nat) : Float64.number := Celebration.half.
Definition frozen (k : nat) : Z := 1000.

(** A backend on which only the construction of the context works. *)
Definition constructorOnly : SoundEngine.Backend :=
  fun c => match c with
           | SoundEngine.NewAudioContext => None
           | _ => Some JS.NotSupportedError
           end.

End Sample.

(* ===================================================================== *)
(** * Properties *)
(* ===================================================================== *)

Import SoundEngine TodoApp.

(** ** Running the handlers *)

Lemma jsstring_eqb_eq (a b : jsstring) : jsstring_eqb a b = true <-> a = b.
Proof.
  unfold jsstring_eqb. destruct (list_eq_dec N.eq_dec a b); split; congruence.
Qed.

Lemma invoked_engine (l : list effect) : invoked (List.map Engine l) = [].
Proof. induction l; simpl; auto. Qed.

(** A call into the sound engine leaves the list alone, whatever the
    engine does. *)
Lemma callSound_run backend m s :
  exists o e l,
    callSound backend m s =
      (o, {| todos := todos s; inputValue := inputValue s;
             priority := priority s; soundEngine := e |},
       Invoke m :: List.map Engine l)
    /\ play backend m (soundEngine s) = (o, e, l).
Proof.
  unfold callSound. destruct (play backend m (soundEngine s)) as [[o e] l].
  now exists o, e, l.
Qed.

Ltac run_sound backend m s :=
  let o := fresh "o" in let e := fresh "e" in let l := fresh "l" in
  let H := fresh "Hcall" in let Hp := fresh "Hplay" in
  destruct (callSound_run backend m s) as (o & e & l & H & Hp);
  rewrite H; clear H; destruct o.

Lemma find_absent id (l : list Todo.t) :
  ~ In id (ids l) -> find (fun t => Todo.id t =? id) l = None.
Proof.
  induction l as [|t l IH]; simpl; intros H; auto.
  destruct (Z.eqb_spec (Todo.id t) id); [tauto|]. apply IH. tauto.
Qed.

Lemma find_present id (l : list Todo.t) :
  In id (ids l) -> exists t, find (fun t => Todo.id t =? id) l = Some t.
Proof.
  induction l as [|t l IH]; simpl; intros H; [tauto|].
  destruct (Z.eqb_spec (Todo.id t) id); [eauto|].
  apply IH. destruct H; congruence.
Qed.

Lemma toggled_absent id l : ~ In id (ids l) -> toggled id l = l.
Proof.
  induction l as [|t l IH]; simpl; intros H; auto.
  destruct (Z.eqb_spec (Todo.id t) id); [tauto|]. f_equal. apply IH. tauto.
Qed.

Lemma without_absent id l : ~ In id (ids l) -> without id l = l.
Proof.
  induction l as [|t l IH]; simpl; intros H; auto.
  destruct (Z.eqb_spec (Todo.id t) id); [tauto|]. simpl. f_equal. apply IH. tauto.
Qed.

Lemma flip_flip t : Todo.flip (Todo.flip t) = t.
Proof. destruct t as [i x c p]; unfold Todo.flip; simpl. now rewrite negb_involutive. Qed.

Lemma toggled_toggled id l : toggled id (toggled id l) = l.
Proof.
  induction l as [|t l IH]; simpl; auto. rewrite IH. f_equal.
  destruct (Z.eqb_spec (Todo.id t) id) as [E|E].
  - simpl. rewrite E, Z.eqb_refl. apply flip_flip.
  - destruct (Z.eqb_spec (Todo.id t) id); congruence.
Qed.

Lemma ids_toggled id l : ids (toggled id l) = ids l.
Proof.
  unfold ids, toggled. rewrite List.map_map. apply List.map_ext.
  intros t. now destruct (Todo.id t =? id).
Qed.

(** The list after each handler. *)

Lemma todos_addTodo backend now s :
  todos (step backend (AddTodo now) s) =
    if jsstring_eqb (trim (inputValue s)) [] then todos s
    else {| Todo.id := now; Todo.text := inputValue s;
            Todo.completed := false; Todo.priority := priority s |} :: todos s.
Proof.
  unfold step, dispatch, handler, addTodo.
  destruct (jsstring_eqb (trim (inputValue s)) []); [reflexivity|].
  unfold bind at 1. cbn [setTodos]. unfold bind at 1. cbn [setInputValue].
  match goal with |- context [callSound backend PlayAdd ?s'] =>
    run_sound backend PlayAdd s' end; reflexivity.
Qed.

Lemma todos_toggleTodo backend id s :
  todos (step backend (ToggleTodo id) s) =
    match result (dispatch backend (ToggleTodo id) s) with
    | Returned _ => toggled id (todos s)
    | Threw _ => todos s
    end.
Proof.
  unfold step, dispatch, handler, toggleTodo.
  destruct (find _ (todos s)) as [todo|].
  - unfold bind. run_sound backend (PlayToggle (negb (Todo.completed todo))) s; reflexivity.
  - reflexivity.
Qed.

Lemma todos_deleteTodo backend id s :
  todos (step backend (DeleteTodo id) s) =
    match result (dispatch backend (DeleteTodo id) s) with
    | Returned _ => without id (todos s)
    | Threw _ => todos s
    end.
Proof.
  unfold step, dispatch, handler, deleteTodo, bind.
  run_sound backend PlayDelete s; reflexivity.
Qed.

Lemma todos_reorder backend newOrder s :
  todos (step backend (Reorder newOrder) s) = newOrder.
Proof. reflexivity. Qed.

(** The scenario of the specification: add "Buy milk" (Medium), add
    "Call Alice" (High), toggle the first, delete the second. *)
Example scenario :
  let s2 := run working [ChangeInput (lit "Buy milk"); AddTodo 1000;
                         ChangePriority; ChangeInput (lit "Call Alice");
                         AddTodo 2000] TodoApp.initial in
  let s3 := step working (ToggleTodo 1000) s2 in
  let s4 := step working (DeleteTodo 2000) s3 in
  List.map (fun t => (Todo.text t, Todo.priority t, Todo.completed t)) (todos s2)
    = [(lit "Call Alice", Todo.High, false); (lit "Buy milk", Todo.Medium, false)]
  /\ stats (todos s3)
      = {| total := 2; completed := 1; percentage := Float64.of_Z 50 |}
  /\ List.map (fun t => (Todo.text t, Todo.priority t, Todo.completed t)) (todos s4)
      = [(lit "Buy milk", Todo.Medium, true)]
  /\ stats (todos s4)
      = {| total := 1; completed := 1; percentage := Float64.of_Z 100 |}
  /\ goalAchieved (todos s4) = true.
Proof. repeat split. Qed.

(** ** C1: adding a todo *)

(** C1 (as stated, refuted): the text of the new todo is the input as
    typed, not its trimmed form: adding [" a"] stores [" a"]. *)
Lemma addTodo_stores_untrimmed_text :
  let s := {| todos := []; inputValue := lit " a"; priority := Todo.Medium;
              soundEngine := SoundEngine.new |} in
  trim (inputValue s) = lit "a" /\
  List.map Todo.text (todos (step working (AddTodo 1000) s)) = [lit " a"] /\
  lit " a" <> trim (inputValue s).
Proof. repeat split; try reflexivity. discriminate. Qed.

(** C1 (amended): if the trimmed input is empty, [addTodo] does nothing
    at all (same state, no sound); otherwise the list gets exactly one
    new todo at its head, whose id is the clock reading, whose text is
    the input as typed, whose [completed] is false and whose priority is
    the selected one, the input is cleared and the "add" sound is
    requested once. *)
Theorem addTodo_spec backend now s :
  (trim (inputValue s) = [] ->
     dispatch backend (AddTodo now) s = (Returned tt, s, []))
  /\
  (trim (inputValue s) <> [] ->
     todos (step backend (AddTodo now) s) =
       {| Todo.id := now; Todo.text := inputValue s;
          Todo.completed := false; Todo.priority := priority s |} :: todos s
     /\ inputValue (step backend (AddTodo now) s) = []
     /\ invoked (trace (dispatch backend (AddTodo now) s)) = [PlayAdd]).
Proof.
  split; intros H.
  - unfold dispatch, handler, addTodo. rewrite H. reflexivity.
  - assert (E : jsstring_eqb (trim (inputValue s)) [] = false).
    { destruct (jsstring_eqb _ _) eqn:E; auto. apply jsstring_eqb_eq in E. tauto. }
    split; [rewrite todos_addTodo, E; reflexivity|].
    unfold step, dispatch, handler, addTodo. rewrite E.
    unfold bind at 1 3. cbn [setTodos]. unfold bind at 1 2. cbn [setInputValue].
    match goal with |- context [callSound backend PlayAdd ?s'] =>
      run_sound backend PlayAdd s' end;
      (split; [reflexivity|]); cbn; now rewrite invoked_engine.
Qed.

Lemma addTodo_spec_witness :
  todos (step working (AddTodo 1000)
           {| todos := []; inputValue := lit " a"; priority := Todo.High;
              soundEngine := SoundEngine.new |}) =
    [{| Todo.id := 1000; Todo.text := lit " a";
        Todo.completed := false; Todo.priority := Todo.High |}].
Proof.
  apply (proj2 (addTodo_spec working 1000
           {| todos := []; inputValue := lit " a"; priority := Todo.High;
              soundEngine := SoundEngine.new |})).
  vm_compute. discriminate.
Defined.

(** ** C5: toggling twice *)

Lemma toggled_frame id l : Forall2 (toggledFrom id) l (toggled id l).
Proof.
  induction l as [|t l IH]; simpl; constructor; auto.
  unfold toggledFrom. destruct (Todo.id t =? id); simpl; auto.
Qed.

(** C5: for every list and id, two calls of [toggleTodo(id)] that both
    return leave the list as it was, and a single call changes nothing
    but the [completed] field of the todos with that id, position by
    position. *)
Theorem toggleTodo_involution backend id s :
  In id (ids (todos s)) ->
  result (dispatch backend (ToggleTodo id) s) = Returned tt ->
  result (dispatch backend (ToggleTodo id) (step backend (ToggleTodo id) s))
    = Returned tt ->
  todos (step backend (ToggleTodo id) (step backend (ToggleTodo id) s)) = todos s
  /\ Forall2 (toggledFrom id) (todos s) (todos (step backend (ToggleTodo id) s)).
Proof.
  intros _ H1 H2.
  rewrite (todos_toggleTodo backend id (step backend (ToggleTodo id) s)), H2.
  rewrite (todos_toggleTodo backend id s), H1.
  split; [apply toggled_toggled | apply toggled_frame].
Qed.

Lemma toggleTodo_involution_witness :
  let s := {| todos := [{| Todo.id := 7; Todo.text := lit "Buy milk";
                           Todo.completed := false; Todo.priority := Todo.Medium |};
                        {| Todo.id := 5; Todo.text := lit "Call Alice";
                           Todo.completed := true; Todo.priority := Todo.High |}];
              inputValue := []; priority := Todo.Medium;
              soundEngine := SoundEngine.new |} in
  todos (step working (ToggleTodo 7) (step working (ToggleTodo 7) s)) = todos s.
Proof.
  intros s.
  apply (toggleTodo_involution working 7 s); vm_compute; auto.
Defined.

(** ** C8: reordering *)

(** C8 (as stated, refuted): [reorder] installs whatever list it is
    given; handed the empty list it drops the todo that was there. *)
Lemma reorder_replaces_the_list :
  let s := {| todos := [{| Todo.id := 1; Todo.text := lit "a";
                           Todo.completed := false; Todo.priority := Todo.Low |}];
              inputValue := []; priority := Todo.Medium;
              soundEngine := SoundEngine.new |} in
  ids (todos s) = [1] /\
  ids (todos (step working (Reorder []) s)) = [].
Proof. split; reflexivity. Qed.

(** C8 (amended): [reorder(newOrder)] makes [newOrder] the list; when
    [newOrder] is a permutation of the current list, as the
    drag-and-drop group guarantees, this changes neither the todos (their
    id, text, completed and priority) nor the ids, only their
    positions. *)
Theorem reorder_permutation backend newOrder s :
  todos (step backend (Reorder newOrder) s) = newOrder
  /\ (Permutation newOrder (todos s) ->
      Permutation (todos (step backend (Reorder newOrder) s)) (todos s)
      /\ (forall todo, In todo (todos (step backend (Reorder newOrder) s))
                       <-> In todo (todos s))
      /\ Permutation (ids (todos (step backend (Reorder newOrder) s)))
                     (ids (todos s))
      /\ length (todos (step backend (Reorder newOrder) s)) = length (todos s)).
Proof.
  split; [apply todos_reorder|].
  intros P. rewrite todos_reorder. repeat split.
  - exact P.
  - apply Permutation_in, P.
  - apply Permutation_in, Permutation_sym, P.
  - unfold ids. apply Permutation_map, P.
  - apply Permutation_length, P.
Qed.

Lemma reorder_permutation_witness :
  let a := {| Todo.id := 1; Todo.text := lit "a";
              Todo.completed := false; Todo.priority := Todo.Low |} in
  let b := {| Todo.id := 2; Todo.text := lit "b";
              Todo.completed := true; Todo.priority := Todo.High |} in
  let s := {| todos := [a; b]; inputValue := []; priority := Todo.Medium;
              soundEngine := SoundEngine.new |} in
  Permutation (todos (step working (Reorder [b; a]) s)) (todos s).
Proof.
  intros a b s.
  apply (proj2 (reorder_permutation working [b; a] s)).
  apply perm_swap.
Defined.

(** ** C10: the sound of a deletion *)

(** C10: [deleteTodo(id)] invokes [playDelete] exactly once, and no other
    trigger, whether or not a todo has that id; for an absent id the
    list stays as it is, and [toggleTodo] of an absent id invokes no
    trigger at all and leaves the list as it is. *)
Theorem deleteTodo_always_sounds backend id s :
  invoked (trace (dispatch backend (DeleteTodo id) s)) = [PlayDelete]
  /\ (~ In id (ids (todos s)) ->
        todos (step backend (DeleteTodo id) s) = todos s
        /\ invoked (trace (dispatch backend (ToggleTodo id) s)) = []
        /\ todos (step backend (ToggleTodo id) s) = todos s).
Proof.
  split.
  - unfold dispatch, handler, deleteTodo, bind.
    run_sound backend PlayDelete s; unfold trace; cbn [snd setTodos];
      rewrite ?List.app_nil_r;
      change (invoked (Invoke PlayDelete :: List.map Engine l))
        with (PlayDelete :: invoked (List.map Engine l));
      now rewrite invoked_engine.
  - intros A. repeat split.
    + rewrite todos_deleteTodo. destruct (result _); auto using without_absent.
    + unfold dispatch, handler, toggleTodo. now rewrite (find_absent _ _ A).
    + rewrite todos_toggleTodo. destruct (result _); auto using toggled_absent.
Qed.

Lemma deleteTodo_always_sounds_witness :
  let s := {| todos := [{| Todo.id := 1; Todo.text := lit "a";
                           Todo.completed := false; Todo.priority := Todo.Low |}];
              inputValue := []; priority := Todo.Medium;
              soundEngine := SoundEngine.new |} in
  todos (step working (DeleteTodo 2) s) = todos s
  /\ invoked (trace (dispatch working (ToggleTodo 2) s)) = []
  /\ todos (step working (ToggleTodo 2) s) = todos s.
Proof.
  intros s.
  apply (proj2 (deleteTodo_always_sounds working 2 s)).
  vm_compute. intros [H|[]]. discriminate H.
Defined.

(** ** C2: uniqueness of ids *)

(** C2 (as stated, refuted): two todos added at the same clock reading
    get the same id. *)
Lemma same_tick_same_id :
  let session := [ChangeInput (lit "a"); AddTodo 1000;
                  ChangeInput (lit "b"); AddTodo 1000] in
  ids (todos (run working session TodoApp.initial)) = [1000; 1000]
  /\ ~ NoDup (ids (todos (run working session TodoApp.initial))).
Proof.
  split; [reflexivity|].
  intros H. change (NoDup [1000; 1000]) in H.
  inversion H as [|x l N _]; subst. apply N. now left.
Qed.

Lemma NoDup_ids_without id l : NoDup (ids l) -> NoDup (ids (without id l)).
Proof.
  induction l as [|t l IH]; simpl; intros H; auto.
  inversion H as [|x r N D]; subst.
  destruct (Todo.id t =? id); simpl; auto.
  constructor; auto.
  intros I. apply N. unfold ids, without in *.
  apply in_map_iff in I. destruct I as (u & E & I).
  apply filter_In in I. apply in_map_iff. exists u. tauto.
Qed.

(** Every handler keeps the ids distinct when the clock of an add is
    fresh and a reorder permutes. *)
Lemma step_keeps_ids_distinct backend a s :
  reorderPermutes a s -> freshClock a s ->
  NoDup (ids (todos s)) -> NoDup (ids (todos (step backend a s))).
Proof.
  intros W F D. destruct a as [v| |now|id|id|newOrder|]; simpl in W, F.
  - exact D.
  - exact D.
  - rewrite todos_addTodo. destruct (jsstring_eqb _ _); auto.
    simpl. constructor; auto.
  - rewrite todos_toggleTodo. destruct (result _); auto.
    now rewrite ids_toggled.
  - rewrite todos_deleteTodo. destruct (result _); auto using NoDup_ids_without.
  - rewrite todos_reorder.
    apply (Permutation_NoDup (l := ids (todos s))); auto.
    unfold ids. apply Permutation_map. now apply Permutation_sym.
  - constructor.
Qed.

(** C2 (amended): in every session that starts from the empty list and in
    which each add happens at a clock reading that is not the id of a
    todo in the list (the clock has advanced since) and each reorder
    hands over a permutation of the list, the ids of the todos in the
    list are pairwise distinct at all times. *)
Theorem ids_unique backend s :
  reachable backend (fun a s => reorderPermutes a s /\ freshClock a s) s ->
  NoDup (ids (todos s)).
Proof.
  induction 1 as [|a s R IH [W F]].
  - constructor.
  - now apply step_keeps_ids_distinct.
Qed.

Lemma ids_unique_witness :
  NoDup (ids (todos (step working (AddTodo 1001)
                       (step working (ChangeInput (lit "b"))
                          (step working (AddTodo 1000)
                             (step working (ChangeInput (lit "a"))
                                TodoApp.initial)))))).
Proof.
  apply (ids_unique working).
  repeat (apply reachable_step;
          [| split; vm_compute;
             first [exact I | discriminate | intuition discriminate]]).
  apply reachable_initial.
Defined.

(** ** C7: the muted engine *)

Ltac run_engine :=
  cbv [play playClick playAdd playToggle playDelete playVictory playCredits
       scheduleVoices harmonics fire init createOscillator call setTimeout
       setEnabled bind get put emit ret throw
       result final trace fst snd audioCtx enabled negb app
       audio_calls timers].

(** C7 (as stated, refuted): on a muted engine [playClick] still
    constructs the audio context, and [playVictory] still sets its five
    timers, whose callbacks build oscillator and gain nodes without
    looking at [enabled]. *)
Lemma muted_engine_reaches_backend :
  let muted := final (setEnabled false SoundEngine.new) in
  let after := final (play working PlayVictory muted) in
  enabled muted = false
  /\ audio_calls (trace (play working PlayClick muted)) = [NewAudioContext]
  /\ timers (trace (play working PlayVictory muted))
       = List.map VictoryVoice harmonics
  /\ enabled after = false
  /\ firstn 2 (audio_calls (trace (fire working (VictoryVoice 1) after)))
       = [CreateOscillator; CreateGain].
Proof. repeat split. Qed.

(** C7 (amended): after [setEnabled(false)], each of [playClick],
    [playAdd], [playToggle], [playDelete] and [playCredits] makes no call
    into the audio backend other than the construction of the audio
    context when there is none yet: no oscillator or gain node is built
    and nothing is scheduled on the audio clock.  The engine stays muted,
    and the timers these methods set do nothing when they fire on a muted
    engine. *)
Theorem muted_triggers backend m e0 :
  m <> PlayVictory ->
  let muted := final (setEnabled false e0) in
  let r := play backend m muted in
  audio_calls (trace r)
    = match audioCtx e0 with None => [NewAudioContext] | Some _ => [] end
  /\ enabled (final r) = false
  /\ (forall cb e',
        In cb (timers (trace r)) -> enabled e' = false ->
        trace (fire backend cb e') = []).
Proof.
  intros Hm muted r. subst muted r.
  destruct e0 as [[ctx|] en];
    destruct m as [ | |[|]| | | ]; try congruence;
    run_engine;
    destruct (backend NewAudioContext); run_engine;
    (split; [reflexivity|split; [reflexivity|]]);
    intros cb [[|] en'] I E; simpl in E; subst;
    try (destruct I as [<-|I]); try contradiction; reflexivity.
Qed.

Lemma muted_triggers_witness :
  audio_calls (trace (play working PlayAdd (final (setEnabled false SoundEngine.new))))
    = [NewAudioContext].
Proof.
  apply (muted_triggers working PlayAdd SoundEngine.new).
  discriminate.
Defined.

(** The voices of [playVictory] are not behind the switch: once the
    audio context exists, a voice whose timer fires builds its oscillator
    whether the engine is enabled or not. *)
Lemma trace_call_first backend c (k : unit -> Snd unit) e :
  exists l, trace (bind (call backend c) k e) = Audio c :: l.
Proof.
  unfold bind, call, emit, bind.
  destruct (backend c) as [x|]; cbn.
  - now eexists.
  - destruct (k tt e) as [[o s2] l2]. now eexists.
Qed.

Lemma victory_voice_ignores_enabled backend harmonic e :
  audioCtx e <> None ->
  hd_error (audio_calls (trace (fire backend (VictoryVoice harmonic) e)))
    = Some CreateOscillator.
Proof.
  destruct e as [[ctx|] en]; [intros _|simpl; congruence].
  unfold fire. unfold bind at 1. cbn [get audioCtx].
  match goal with
  | |- context [bind (call backend CreateOscillator) ?k ?e] =>
      destruct (trace_call_first backend CreateOscillator k e) as (l & H);
      destruct (bind (call backend CreateOscillator) k e) as [[o s2] l2]
  end.
  unfold trace in *. cbn [snd app] in *. now rewrite H.
Qed.

(** ** C9: failures of the audio backend *)

(** C9 (as stated, refuted): where no audio context can be constructed,
    [playDelete] throws, the exception leaves [deleteTodo] before it has
    updated the list, and the todo is still there. *)
Lemma audio_failure_stops_deletion :
  let s := {| todos := [{| Todo.id := 1; Todo.text := lit "a";
                           Todo.completed := false; Todo.priority := Todo.Low |}];
              inputValue := []; priority := Todo.Medium;
              soundEngine := SoundEngine.new |} in
  result (play no_audio_context PlayDelete SoundEngine.new) = Threw TypeError
  /\ result (dispatch no_audio_context (DeleteTodo 1) s) = Threw TypeError
  /\ ids (todos (step no_audio_context (DeleteTodo 1) s)) = [1]
  /\ ids (todos (step working (DeleteTodo 1) s)) = [].
Proof. repeat split. Qed.

Lemma play_without_context backend x m e :
  backend NewAudioContext = Some x -> audioCtx e = None ->
  result (play backend m e) = Threw x.
Proof.
  intros B C. destruct e as [ctx en]. simpl in C. subst ctx.
  destruct m as [ | |[|]| | | ]; run_engine; rewrite B; reflexivity.
Qed.

Lemma result_callSound backend m s :
  result (callSound backend m s) = result (play backend m (soundEngine s)).
Proof.
  unfold callSound. now destruct (play backend m (soundEngine s)) as [[o e] l].
Qed.

Ltac run_attempts :=
  cbv [perform play playClick playAdd playToggle playDelete playVictory playCredits
       scheduleVoices harmonics fire init createOscillator call setTimeout
       setEnabled bind get put emit ret throw working
       result final trace fst snd audioCtx enabled negb app
       audio_calls firstFailure upToFailure].

Ltac split_attempts backend :=
  repeat match goal with
  | |- context [backend ?c] => destruct (backend c); run_attempts
  end.

(** What a trigger method does on any backend, from what it does where
    no call fails: it makes the same calls up to the first that fails and
    throws what that call throws. *)
Lemma play_propagates backend m e :
  result (play backend m e)
    = match firstFailure backend (audio_calls (trace (play working m e))) with
      | Some x => Threw x
      | None => Returned tt
      end
  /\ audio_calls (trace (play backend m e))
       = upToFailure backend (audio_calls (trace (play working m e))).
Proof.
  destruct e as [[ctx|] [|]]; destruct m as [ | |[|]| | | ];
    run_attempts; split_attempts backend; split; reflexivity.
Qed.

Lemma fire_propagates backend cb e :
  result (fire backend cb e)
    = match firstFailure backend (audio_calls (trace (fire working cb e))) with
      | Some x => Threw x
      | None => result (fire working cb e)
      end
  /\ audio_calls (trace (fire backend cb e))
       = upToFailure backend (audio_calls (trace (fire working cb e))).
Proof.
  destruct e as [[ctx|] [|]]; destruct cb as [freq type duration volume|harmonic];
    run_attempts; split_attempts backend; split; reflexivity.
Qed.

Lemma perform_propagates backend r e :
  result (perform backend r e)
    = match firstFailure backend (audio_calls (trace (perform working r e))) with
      | Some x => Threw x
      | None => result (perform working r e)
      end
  /\ audio_calls (trace (perform backend r e))
       = upToFailure backend (audio_calls (trace (perform working r e))).
Proof.
  destruct r as [m|cb|val].
  - destruct (play_propagates backend m e) as [R T]. split; [|exact T].
    cbn [perform]. rewrite R.
    destruct (firstFailure _ _); [reflexivity|].
    destruct e as [[ctx|] [|]]; destruct m as [ | |[|]| | | ]; reflexivity.
  - apply fire_propagates.
  - split; reflexivity.
Qed.

Lemma failure_is_first backend l c x :
  In c (upToFailure backend l) -> backend c = Some x ->
  firstFailure backend l = Some x.
Proof.
  induction l as [|d l IH]; simpl; [tauto|].
  intros [->|I] B.
  - now rewrite B.
  - destruct (backend d) eqn:D; [destruct I|]. now apply IH.
Qed.

Lemma failure_is_last backend l c x :
  In c (upToFailure backend l) -> backend c = Some x ->
  exists before, upToFailure backend l = before ++ [c].
Proof.
  induction l as [|d l IH]; simpl; [tauto|].
  intros [->|I] B.
  - rewrite B. now exists [].
  - destruct (backend d) eqn:D; [destruct I|].
    destruct (IH I B) as (before & ->). now exists (d :: before).
Qed.

(** A handler that calls the engine ends as the trigger method ends. *)
Lemma result_deleteTodo backend id s :
  result (dispatch backend (DeleteTodo id) s)
    = result (play backend PlayDelete (soundEngine s)).
Proof.
  rewrite <- result_callSound. unfold dispatch, handler, deleteTodo, bind.
  destruct (callSound backend PlayDelete s) as [[[[]|x] s1] l1]; reflexivity.
Qed.

Lemma result_toggleTodo backend id s todo :
  find (fun t => Todo.id t =? id) (todos s) = Some todo ->
  result (dispatch backend (ToggleTodo id) s)
    = result (play backend (PlayToggle (negb (Todo.completed todo)))
                (soundEngine s)).
Proof.
  intros F. rewrite <- result_callSound.
  unfold dispatch, handler, toggleTodo. rewrite F. unfold bind.
  destruct (callSound backend _ s) as [[[[]|x] s1] l1]; reflexivity.
Qed.

Lemma result_addTodo backend now s :
  trim (inputValue s) <> [] ->
  result (dispatch backend (AddTodo now) s)
    = result (play backend PlayAdd (soundEngine s)).
Proof.
  intros B. unfold dispatch, handler, addTodo.
  destruct (jsstring_eqb _ _) eqn:E; [apply jsstring_eqb_eq in E; tauto|].
  unfold bind at 1. cbn [setTodos]. unfold bind at 1. cbn [setInputValue].
  match goal with |- context [callSound backend PlayAdd ?s'] =>
    destruct (callSound_run backend PlayAdd s') as (o & e & l & H & P);
    rewrite H; clear H end.
  cbn [soundEngine] in P. rewrite P. destruct o; reflexivity.
Qed.

(** C9 (amended): no trigger method and no timer callback catches
    anything.  On any backend each makes the calls it makes where nothing
    fails, up to the first call that fails, whichever call that is
    (constructing the context, creating the oscillator or the gain,
    setting a parameter, connecting, starting, stopping); that call is
    the last one attempted and its exception is thrown to the caller.
    In particular, when the audio context cannot be constructed every
    trigger method called on an engine without a context throws, and when
    creating the oscillator fails on an enabled engine with a context the
    five methods that emit immediately throw.  The handlers do not catch
    either: [deleteTodo], [toggleTodo] of an id in the list and [addTodo]
    of a non-blank input end as the trigger method they call ends; when
    they throw, [deleteTodo] and [toggleTodo], which call the engine
    before they update the list, leave the list unchanged, and [addTodo],
    which calls it last, has added the todo.  On a backend where no call
    fails every trigger method returns normally. *)
Theorem audio_failures_propagate :
  (forall backend x, backend NewAudioContext = Some x ->
     (forall m e, audioCtx e = None -> result (play backend m e) = Threw x)
     /\ (forall id s, audioCtx (soundEngine s) = None ->
           result (dispatch backend (DeleteTodo id) s) = Threw x
           /\ todos (step backend (DeleteTodo id) s) = todos s)
     /\ (forall id s, audioCtx (soundEngine s) = None ->
           In id (ids (todos s)) ->
           result (dispatch backend (ToggleTodo id) s) = Threw x
           /\ todos (step backend (ToggleTodo id) s) = todos s))
  /\ (forall backend x m e,
        backend CreateOscillator = Some x ->
        audioCtx e <> None -> enabled e = true -> m <> PlayVictory ->
        result (play backend m e) = Threw x)
  /\ (forall backend m e,
        (forall c, backend c = None) -> result (play backend m e) = Returned tt)
  /\ (forall backend r e,
        result (perform backend r e)
          = match firstFailure backend
                    (audio_calls (trace (perform working r e))) with
            | Some x => Threw x
            | None => result (perform working r e)
            end
        /\ audio_calls (trace (perform backend r e))
             = upToFailure backend (audio_calls (trace (perform working r e))))
  /\ (forall backend r e c x,
        In c (audio_calls (trace (perform backend r e))) ->
        backend c = Some x ->
        result (perform backend r e) = Threw x
        /\ exists before,
             audio_calls (trace (perform backend r e)) = before ++ [c])
  /\ (forall backend s,
        (forall id,
           result (dispatch backend (DeleteTodo id) s)
             = result (play backend PlayDelete (soundEngine s)))
        /\ (forall id todo,
              find (fun t => Todo.id t =? id) (todos s) = Some todo ->
              result (dispatch backend (ToggleTodo id) s)
                = result (play backend (PlayToggle (negb (Todo.completed todo)))
                            (soundEngine s)))
        /\ (forall now,
              trim (inputValue s) <> [] ->
              result (dispatch backend (AddTodo now) s)
                = result (play backend PlayAdd (soundEngine s)))
        /\ (forall id x,
              result (dispatch backend (DeleteTodo id) s) = Threw x ->
              todos (step backend (DeleteTodo id) s) = todos s)
        /\ (forall id x,
              result (dispatch backend (ToggleTodo id) s) = Threw x ->
              todos (step backend (ToggleTodo id) s) = todos s)
        /\ (forall now x,
              result (dispatch backend (AddTodo now) s) = Threw x ->
              todos (step backend (AddTodo now) s)
                = {| Todo.id := now; Todo.text := inputValue s;
                     Todo.completed := false; Todo.priority := priority s |}
                  :: todos s)).
Proof.
  split; [|split; [|split; [|split; [|split]]]].
  - intros backend x B. split; [|split].
    + intros m e C. now apply play_without_context.
    + intros id s C.
      assert (R : result (dispatch backend (DeleteTodo id) s) = Threw x).
      { rewrite result_deleteTodo. now apply play_without_context. }
      split; [exact R|]. now rewrite todos_deleteTodo, R.
    + intros id s C I.
      assert (R : result (dispatch backend (ToggleTodo id) s) = Threw x).
      { destruct (find_present id (todos s) I) as (todo & F).
        rewrite (result_toggleTodo backend id s todo F).
        now apply play_without_context. }
      split; [exact R|]. now rewrite todos_toggleTodo, R.
  - intros backend x m [[ctx|] en] B C E Hm; [|simpl in C; congruence].
    simpl in E. subst en.
    destruct m as [ | |[|]| | | ]; try congruence; run_engine; rewrite B; reflexivity.
  - intros backend m [[ctx|] en] W;
      destruct m as [ | |[|]| | | ]; destruct en; run_engine;
      rewrite ?W; reflexivity.
  - apply perform_propagates.
  - intros backend r e c x I B.
    destruct (perform_propagates backend r e) as [R T]. rewrite T in I |- *.
    rewrite R, (failure_is_first backend _ c x I B).
    split; [reflexivity|]. now apply (failure_is_last backend _ c x).
  - intros backend s. repeat split.
    + intros id. apply result_deleteTodo.
    + intros id todo. apply result_toggleTodo.
    + intros now. apply result_addTodo.
    + intros id x R. now rewrite todos_deleteTodo, R.
    + intros id x R. now rewrite todos_toggleTodo, R.
    + intros now x R. rewrite todos_addTodo.
      destruct (jsstring_eqb _ _) eqn:E; [|reflexivity].
      unfold dispatch, handler, addTodo in R. rewrite E in R. discriminate R.
Qed.

Lemma audio_failures_propagate_witness :
  (forall m, result (play no_audio_context m SoundEngine.new) = Threw TypeError)
  /\ result (play (fun c => match c with
                            | CreateOscillator => Some NotSupportedError
                            | _ => None
                            end)
               PlayDelete {| audioCtx := Some TheAudioContext; enabled := true |})
     = Threw NotSupportedError
  /\ result (play working PlayVictory SoundEngine.new) = Returned tt
  /\ result (perform (fun c => match c with
                               | OscStart => Some NotSupportedError
                               | _ => None
                               end)
               (Trigger PlayClick) SoundEngine.new)
     = Threw NotSupportedError
  /\ result (dispatch (fun c => match c with
                                | CreateGain => Some NotSupportedError
                                | _ => None
                                end)
               (DeleteTodo 7) Sample.visit)
     = Threw NotSupportedError
  /\ todos (step (fun c => match c with
                           | CreateGain => Some NotSupportedError
                           | _ => None
                           end)
              (AddTodo 9) Sample.visit)
     = {| Todo.id := 9; Todo.text := inputValue Sample.visit;
          Todo.completed := false; Todo.priority := priority Sample.visit |}
       :: todos Sample.visit.
Proof.
  destruct audio_failures_propagate as (A & B & C & D & E & F).
  split; [|split; [|split; [|split; [|split]]]].
  - intros m. apply (proj1 (A no_audio_context TypeError eq_refl)). reflexivity.
  - apply B; [reflexivity | discriminate | reflexivity | discriminate].
  - apply C. reflexivity.
  - apply (E _ (Trigger PlayClick) SoundEngine.new OscStart).
    + vm_compute. tauto.
    + reflexivity.
  - destruct (F (fun c => match c with
                          | CreateGain => Some NotSupportedError
                          | _ => None
                          end) Sample.visit) as (F1 & _).
    rewrite F1. reflexivity.
  - destruct (F (fun c => match c with
                          | CreateGain => Some NotSupportedError
                          | _ => None
                          end) Sample.visit) as (_ & _ & _ & _ & _ & F6).
    apply (F6 9 NotSupportedError). reflexivity.
Defined.

(** ** JSON: what [JSON.parse] reads back from [JSON.stringify] *)

Import JSON.

(** *** The model at work *)

Example parse_numbers_and_names :
  parse (lit " [1, 2.50, -3e2, 0.0000012, 1e21, true, false, null ] ")
    = Returned (Array [Number (Integral 1); Number (Fractional 25 (-1));
                       Number (Integral (-300)); Number (Fractional 12 (-7));
                       Number (Integral (10 ^ 21)); Bool true; Bool false; Null]).
Proof. reflexivity. Qed.

Example stringify_numbers_and_names :
  stringify (Array [Number (Integral 1); Number (Fractional 25 (-1));
                    Number (Integral (-300)); Number (Fractional 12 (-7));
                    Number (Integral (10 ^ 21)); Bool true; Bool false; Null])
    = lit "[1,2.5,-300,0.0000012,1e+21,true,false,null]".
Proof. reflexivity. Qed.

(** A line feed, a quotation mark and a lone surrogate are escaped; a
    well-formed surrogate pair is copied. *)
Example quote_escapes :
  quote [97; 10; 34; 55357; 56832; 55357]%N
    = [34; 97; 92; 110; 92; 34; 55357; 56832] %N
      ++ lit "\ud83d" ++ [34%N].
Proof. reflexivity. Qed.

(** Duplicate keys: the last value wins, in the place of the first;
    index-like keys come first. *)
Example parse_object_order :
  parse (ch "{" :: quote (lit "b") ++ lit ":1," ++ quote (lit "7") ++ lit ":2,"
           ++ quote (lit "b") ++ lit ":3}")
    = Returned (Object [(lit "7", Number (Integral 2));
                        (lit "b", Number (Integral 3))]).
Proof. reflexivity. Qed.

Example parse_rejects :
  List.map parse
    [[]; lit "{"; lit "[1,]"; lit "01"; lit "1."; lit "tru"; lit "[1 2]";
     lit "nul"; lit "-"; quotation_mark :: lit "abc"]
    = repeat (Threw SyntaxError) 10.
Proof. reflexivity. Qed.

(** What is written to localStorage for a list of one todo. *)
Example persisted_one :
  persisted [{| Todo.id := 1700000000000; Todo.text := lit "Buy milk";
                Todo.completed := false; Todo.priority := Todo.Medium |}]
    = lit "[{" ++ quote (lit "id") ++ lit ":1700000000000,"
      ++ quote (lit "text") ++ lit ":" ++ quote (lit "Buy milk") ++ lit ","
      ++ quote (lit "completed") ++ lit ":false,"
      ++ quote (lit "priority") ++ lit ":" ++ quote (lit "Medium") ++ lit "}]".
Proof. reflexivity. Qed.

(** *** Strings *)

Lemma hexValue_hexDigit n : (n < 16)%N -> hexValue (hexDigit n) = Some n.
Proof.
  intros H. unfold hexValue, hexDigit, isDigit.
  destruct (N.ltb_spec n 10).
  - replace ((48 <=? 48 + n)%N && (48 + n <=? 57)%N) with true.
    + f_equal. lia.
    + symmetry. apply andb_true_intro. split; apply N.leb_le; lia.
  - replace ((48 <=? 87 + n)%N && (87 + n <=? 57)%N) with false.
    + replace ((97 <=? 87 + n)%N && (87 + n <=? 102)%N) with true.
      * f_equal. lia.
      * symmetry. apply andb_true_intro. split; apply N.leb_le; lia.
    + symmetry. apply andb_false_intro2. apply N.leb_gt. lia.
Qed.

Lemma hex4_unicodeEscape c tail :
  (c < 65536)%N ->
  exists h1 h2 h3 h4,
    unicodeEscape c ++ tail = reverse_solidus :: ch "u" :: h1 :: h2 :: h3 :: h4 :: tail
    /\ hex4 h1 h2 h3 h4 = Some c.
Proof.
  intros H. unfold unicodeEscape. do 4 eexists. split; [reflexivity|].
  unfold hex4.
  rewrite !hexValue_hexDigit by (apply N.mod_lt; discriminate).
  f_equal.
  replace (c / 4096)%N with (c / 16 / 16 / 16)%N by (rewrite !N.Div0.div_div; reflexivity).
  replace (c / 256)%N with (c / 16 / 16)%N by (rewrite !N.Div0.div_div; reflexivity).
  assert (c / 16 / 16 / 16 < 16)%N.
  { rewrite !N.Div0.div_div. apply N.Div0.div_lt_upper_bound. exact H. }
  rewrite (N.mod_small (c / 16 / 16 / 16) 16) by assumption.
  pose proof (N.div_mod c 16). pose proof (N.div_mod (c / 16) 16).
  pose proof (N.div_mod (c / 16 / 16) 16). lia.
Qed.

Lemma parseChars_literal c tail :
  (c =? quotation_mark)%N = false -> (c =? reverse_solidus)%N = false ->
  (c <? 32)%N = false ->
  parseChars (c :: tail) =
    match parseChars tail with
    | Some (str, rest) => Some (c :: str, rest)
    | None => None
    end.
Proof. intros H1 H2 H3. simpl. now rewrite H1, H2, H3. Qed.

Lemma surrogate_literal c :
  isLeadingSurrogate c || isTrailingSurrogate c = true ->
  (c =? quotation_mark)%N = false /\ (c =? reverse_solidus)%N = false
  /\ (c <? 32)%N = false /\ (c < 65536)%N.
Proof.
  unfold isLeadingSurrogate, isTrailingSurrogate, quotation_mark, reverse_solidus.
  intros H. apply orb_true_iff in H.
  repeat rewrite andb_true_iff in H. repeat rewrite N.leb_le in H.
  repeat split; try apply N.eqb_neq; try apply N.ltb_ge; lia.
Qed.

Lemma parseChars_quoteUnit c tail :
  parseChars (quoteUnit c ++ tail) =
    match parseChars tail with
    | Some (str, rest) => Some (c :: str, rest)
    | None => None
    end.
Proof.
  unfold quoteUnit.
  repeat match goal with
  | |- context [if (c =? ?k)%N then _ else _] =>
      destruct (N.eqb_spec c k) as [->|?]; [reflexivity|]
  end.
  destruct ((c <? 32)%N || isLeadingSurrogate c || isTrailingSurrogate c) eqn:E.
  - assert (L : (c < 65536)%N).
    { rewrite <- orb_assoc in E. apply orb_true_iff in E. destruct E as [E|E].
      - apply N.ltb_lt in E. lia.
      - now apply surrogate_literal in E. }
    destruct (hex4_unicodeEscape c tail L) as (h1 & h2 & h3 & h4 & -> & Hx).
    cbn [parseChars]. change (reverse_solidus =? quotation_mark)%N with false.
    change (reverse_solidus =? reverse_solidus)%N with true.
    change (ch "u" =? ch "u")%N with true. cbv iota. now rewrite Hx.
  - apply orb_false_iff in E. destruct E as [E _].
    apply orb_false_iff in E. destruct E as [E _].
    apply parseChars_literal; auto; now apply N.eqb_neq.
Qed.

Lemma quoteChars_pair c d r :
  quoteChars (c :: d :: r) =
    if isLeadingSurrogate c && isTrailingSurrogate d
    then c :: d :: quoteChars r
    else quoteUnit c ++ quoteChars (d :: r).
Proof. reflexivity. Qed.

Lemma parseChars_quoteChars_upto n : forall s rest,
  (length s <= n)%nat ->
  parseChars (quoteChars s ++ quotation_mark :: rest) = Some (s, rest).
Proof.
  induction n as [|n IH]; intros s rest L.
  - destruct s; [reflexivity | simpl in L; lia].
  - destruct s as [|c [|d r]].
    + reflexivity.
    + change (quoteChars [c]) with (quoteUnit c).
      rewrite parseChars_quoteUnit. reflexivity.
    + rewrite quoteChars_pair.
      destruct (isLeadingSurrogate c && isTrailingSurrogate d) eqn:E.
      * apply andb_true_iff in E. destruct E as [Ec Ed].
        destruct (surrogate_literal c) as (c1 & c2 & c3 & _); [now rewrite Ec|].
        destruct (surrogate_literal d) as (d1 & d2 & d3 & _);
          [rewrite Ed; apply orb_true_r|].
        change ((c :: d :: quoteChars r) ++ quotation_mark :: rest)
          with (c :: d :: (quoteChars r ++ quotation_mark :: rest)).
        rewrite (parseChars_literal c _ c1 c2 c3).
        rewrite (parseChars_literal d _ d1 d2 d3).
        rewrite IH; [reflexivity | simpl in *; lia].
      * rewrite <- List.app_assoc, parseChars_quoteUnit.
        rewrite IH; [reflexivity | simpl in *; lia].
Qed.

Lemma parseChars_quoteChars s rest :
  parseChars (quoteChars s ++ quotation_mark :: rest) = Some (s, rest).
Proof. apply (parseChars_quoteChars_upto (length s)). lia. Qed.

(** *** Numbers *)

Lemma codes_uint_uint_codes u : codes_uint (uint_codes u) = u.
Proof. induction u; simpl; congruence. Qed.

Lemma digits_value_digits n : digits_value (digits n) = n.
Proof.
  unfold digits_value, digits. rewrite codes_uint_uint_codes.
  apply DecimalN.Unsigned.of_to.
Qed.

Lemma takeDigits_uint_codes u tail :
  endsDigits tail -> takeDigits (uint_codes u ++ tail) = (uint_codes u, tail).
Proof.
  intros E. induction u; simpl; try (rewrite IHu; reflexivity).
  destruct tail as [|c r]; simpl in *; [reflexivity | now rewrite E].
Qed.

Lemma to_uint_normal n : Decimal.unorm (N.to_uint n) = N.to_uint n.
Proof.
  rewrite <- (DecimalN.Unsigned.of_to n) at 2.
  now rewrite DecimalN.Unsigned.to_of.
Qed.

Lemma digits_head n :
  exists d ds, digits n = d :: ds /\ isDigit d = true
               /\ ((d =? 48)%N = true -> ds = []).
Proof.
  unfold digits. pose proof (to_uint_normal n) as U.
  unfold Decimal.unorm in U.
  pose proof (DecimalFacts.nzhead_nonzero (N.to_uint n)) as Z0.
  destruct (Decimal.nzhead (N.to_uint n)) eqn:E; rewrite <- U;
    try (do 2 eexists; split; [reflexivity|split; [reflexivity|]];
         simpl; intros; congruence).
Qed.

Lemma parseInt_digits n tail :
  endsDigits tail -> parseInt (digits n ++ tail) = Some (digits n, tail).
Proof.
  intros E. destruct (digits_head n) as (d & ds & Hd & D & Z0).
  pose proof (takeDigits_uint_codes (N.to_uint n) tail E) as T.
  fold (digits n) in T. rewrite Hd in *.
  unfold parseInt. cbn [app]. change (ch "0") with 48%N.
  destruct (d =? 48)%N eqn:E0.
  - now rewrite (Z0 eq_refl).
  - cbn [app] in T. rewrite T. reflexivity.
Qed.

Lemma digit_is_not d k :
  isDigit d = true -> isDigit k = false -> (d =? k)%N = false.
Proof.
  intros D K. destruct (N.eqb_spec d k); [congruence|reflexivity].
Qed.

Lemma parseNumber_integral z tail :
  plainDecimal z -> endsNumber tail ->
  parseNumber (number_to_string (Integral z) ++ tail) = Some (Integral z, tail).
Proof.
  intros B E. unfold number_to_string, plainDecimal in *.
  apply Z.ltb_lt in B. rewrite B. clear B.
  assert (ED : endsDigits tail) by (destruct tail; simpl in *; tauto).
  assert (F : parseFraction tail = Some ([], tail)).
  { destruct tail as [|c r]; [reflexivity|]. simpl in E. unfold parseFraction.
    now replace (c =? ch ".")%N with false by (symmetry; tauto). }
  assert (X : parseExponent tail = Some (0, tail)).
  { destruct tail as [|c r]; [reflexivity|]. simpl in E. unfold parseExponent.
    replace (c =? ch "e")%N with false by (symmetry; tauto).
    now replace (c =? ch "E")%N with false by (symmetry; tauto). }
  assert (V : Z.of_N (digits_value (digits (Z.abs_N z) ++ [])) = Z.abs z).
  { rewrite List.app_nil_r, digits_value_digits. apply N2Z.inj_abs_N. }
  unfold parseNumber, sign. rewrite <- List.app_assoc.
  destruct (Z.ltb_spec z 0) as [N|N].
  - change (parseMinus ([ch "-"] ++ digits (Z.abs_N z) ++ tail))
      with (true, digits (Z.abs_N z) ++ tail). cbv beta iota.
    rewrite (parseInt_digits _ _ ED), F, X, V. cbn [length Z.of_nat Z.sub Z.opp].
    f_equal. f_equal. unfold decimal.
    destruct (Z.eqb_spec (- Z.abs z) 0); [f_equal; lia|].
    cbn. f_equal. lia.
  - assert (S0 : parseMinus (digits (Z.abs_N z) ++ tail)
                 = (false, digits (Z.abs_N z) ++ tail)).
    { destruct (digits_head (Z.abs_N z)) as (d & ds & Hd & D & _).
      rewrite Hd. unfold parseMinus. cbn [app].
      now rewrite (digit_is_not d (ch "-") D eq_refl). }
    cbn [app]. rewrite S0. cbv beta iota.
    rewrite (parseInt_digits _ _ ED), F, X, V. cbn [length Z.of_nat Z.sub Z.opp].
    f_equal. f_equal. unfold decimal.
    destruct (Z.eqb_spec (Z.abs z) 0); [f_equal; lia|].
    cbn. f_equal. lia.
Qed.

(** *** Values *)

Lemma quote_app s rest :
  quote s ++ rest = quotation_mark :: quoteChars s ++ quotation_mark :: rest.
Proof. unfold quote. cbn [app]. now rewrite <- List.app_assoc. Qed.

Lemma parseValue_string f s rest :
  parseValue (S f) (quote s ++ rest) = Parsed (String s) rest.
Proof.
  rewrite quote_app.
  cbn -[parseChars quoteChars].
  now rewrite parseChars_quoteChars.
Qed.

Lemma parseValue_bool f b rest :
  parseValue (S f) (stringify (Bool b) ++ rest) = Parsed (Bool b) rest.
Proof. destruct b; reflexivity. Qed.

Lemma digit_tests d :
  isDigit d = true ->
  isJSONWhiteSpace d = false /\ (d =? ch "[")%N = false
  /\ (d =? ch "{")%N = false /\ (d =? quotation_mark)%N = false
  /\ (d =? ch "t")%N = false /\ (d =? ch "f")%N = false
  /\ (d =? ch "n")%N = false.
Proof.
  intros D. unfold isJSONWhiteSpace.
  repeat split;
    repeat match goal with
    | |- context [(d =? ?k)%N] => rewrite (digit_is_not d k D eq_refl)
    end; reflexivity.
Qed.

Lemma parseValue_numeric f c r :
  c = ch "-" \/ isDigit c = true ->
  parseValue (S f) (c :: r) =
    match parseNumber (c :: r) with
    | Some (n, rest) => Parsed (Number n) rest
    | None => Malformed
    end.
Proof.
  intros [->|D]; [reflexivity|].
  destruct (digit_tests c D) as (W & T1 & T2 & T3 & T4 & T5 & T6).
  cbn [parseValue skipWhiteSpace]. now rewrite W, T1, T2, T3, T4, T5, T6.
Qed.

Lemma number_head z :
  plainDecimal z ->
  exists c r, number_to_string (Integral z) = c :: r
              /\ (c = ch "-" \/ isDigit c = true).
Proof.
  intros B. unfold number_to_string, plainDecimal in *.
  apply Z.ltb_lt in B. rewrite B.
  unfold sign. destruct (z <? 0).
  - do 2 eexists. split; [reflexivity|now left].
  - destruct (digits_head (Z.abs_N z)) as (d & ds & -> & D & _).
    do 2 eexists. split; [reflexivity|now right].
Qed.

Lemma parseValue_number f z tail :
  plainDecimal z -> endsNumber tail ->
  parseValue (S f) (number_to_string (Integral z) ++ tail)
    = Parsed (Number (Integral z)) tail.
Proof.
  intros B E. pose proof (parseNumber_integral z tail B E) as P.
  destruct (number_head z B) as (c & r & H & C). rewrite H in *.
  cbn [app] in *. rewrite (parseValue_numeric f c _ C). now rewrite P.
Qed.

(** One member of an object literal, followed by a comma or by the
    closing brace. *)
Lemma parseMembers_more f k v vs rest acc :
  parseValue f (vs ++ ch "," :: rest) = Parsed v (ch "," :: rest) ->
  parseMembers (S f) (quote k ++ ch ":" :: vs ++ ch "," :: rest) acc
    = parseMembers f rest (defineMember k v acc).
Proof.
  intros V. rewrite quote_app.
  cbn -[parseChars quoteChars parseValue defineMember].
  rewrite parseChars_quoteChars.
  cbn -[parseChars quoteChars parseValue defineMember].
  change (44%N :: rest) with (ch "," :: rest). rewrite V.
  reflexivity.
Qed.

Lemma parseMembers_last f k v vs rest acc :
  parseValue f (vs ++ ch "}" :: rest) = Parsed v (ch "}" :: rest) ->
  parseMembers (S f) (quote k ++ ch ":" :: vs ++ ch "}" :: rest) acc
    = Parsed (Object (defineMember k v acc)) rest.
Proof.
  intros V. rewrite quote_app.
  cbn -[parseChars quoteChars parseValue defineMember].
  rewrite parseChars_quoteChars.
  cbn -[parseChars quoteChars parseValue defineMember].
  change (125%N :: rest) with (ch "}" :: rest). rewrite V.
  reflexivity.
Qed.

Lemma stringify_todoValue todo rest :
  stringify (todoValue todo) ++ rest =
    ch "{" ::
      quote (lit "id") ++ ch ":" :: number_to_string (Integral (Todo.id todo)) ++ ch "," ::
      quote (lit "text") ++ ch ":" :: quote (Todo.text todo) ++ ch "," ::
      quote (lit "completed") ++ ch ":" :: stringify (Bool (Todo.completed todo)) ++ ch "," ::
      quote (lit "priority") ++ ch ":" :: quote (Todo.name (Todo.priority todo)) ++ ch "}" :: rest.
Proof.
  unfold todoValue.
  cbn [stringify List.map join fst snd].
  cbn [app].
  repeat (rewrite <- ?List.app_assoc; cbn [app]).
  reflexivity.
Qed.

Lemma parseValue_object f k tail :
  parseValue (S f) (ch "{" :: quote k ++ tail) = parseMembers f (quote k ++ tail) [].
Proof. rewrite quote_app. reflexivity. Qed.

Lemma parseValue_todoValue f todo rest :
  plainDecimal (Todo.id todo) ->
  parseValue (6 + f) (stringify (todoValue todo) ++ rest)
    = Parsed (todoValue todo) rest.
Proof.
  intros B. rewrite stringify_todoValue.
  change (6 + f)%nat with (S (S (S (S (S (S f)))))).
  rewrite parseValue_object.
  rewrite parseMembers_more with (v := Number (Integral (Todo.id todo)));
    [| apply parseValue_number; [exact B | now repeat split] ].
  rewrite parseMembers_more with (v := String (Todo.text todo));
    [| apply parseValue_string ].
  rewrite parseMembers_more with (v := Bool (Todo.completed todo));
    [| apply parseValue_bool ].
  rewrite parseMembers_last with (v := String (Todo.name (Todo.priority todo)));
    [| apply parseValue_string ].
  reflexivity.
Qed.

Lemma join_cons2 sep (x y : jsstring) l :
  join sep (x :: y :: l) = x ++ sep ++ join sep (y :: l).
Proof. reflexivity. Qed.

Lemma parseElements_more f v vs rest acc :
  parseValue f (vs ++ ch "," :: rest) = Parsed v (ch "," :: rest) ->
  parseElements (S f) (vs ++ ch "," :: rest) acc = parseElements f rest (v :: acc).
Proof. intros V. cbn [parseElements]. now rewrite V. Qed.

Lemma parseElements_last f v vs rest acc :
  parseValue f (vs ++ ch "]" :: rest) = Parsed v (ch "]" :: rest) ->
  parseElements (S f) (vs ++ ch "]" :: rest) acc = Parsed (Array (rev (v :: acc))) rest.
Proof. intros V. cbn [parseElements]. now rewrite V. Qed.

Lemma parseElements_todos l : forall f acc rest,
  l <> [] -> Forall (fun todo => plainDecimal (Todo.id todo)) l ->
  parseElements (length l + 6 + f)
    (join [ch ","] (List.map stringify (List.map todoValue l)) ++ ch "]" :: rest) acc
    = Parsed (Array (rev acc ++ List.map todoValue l)) rest.
Proof.
  induction l as [|t l IH]; intros f acc rest NE R; [congruence|].
  inversion R as [|? ? Rt Rl]; subst.
  destruct l as [|t' l'].
  - cbn [List.map join length Nat.add].
    rewrite parseElements_last with (v := todoValue t);
      [reflexivity | now apply parseValue_todoValue].
  - cbn [List.map]. rewrite join_cons2. cbn [List.map] in IH.
    rewrite <- !List.app_assoc. cbn [app].
    change (length (t :: t' :: l') + 6 + f)%nat
      with (S (length (t' :: l') + 6 + f)).
    rewrite parseElements_more with (v := todoValue t).
    + rewrite IH; [|discriminate|assumption].
      cbn [rev]. now rewrite <- List.app_assoc.
    + replace (length (t' :: l') + 6 + f)%nat
        with (6 + (length (t' :: l') + f))%nat by lia.
      now apply parseValue_todoValue.
Qed.

Lemma parseValue_todosValue l f rest :
  Forall (fun todo => plainDecimal (Todo.id todo)) l ->
  parseValue (S (length l + 6 + f)) (stringify (todosValue l) ++ rest)
    = Parsed (todosValue l) rest.
Proof.
  intros R. destruct l as [|t l]; [reflexivity|].
  unfold todosValue. cbn [stringify].
  rewrite <- List.app_comm_cons, <- List.app_assoc. cbn [app].
  pose proof (parseElements_todos (t :: l) f [] rest) as P.
  cbn [rev app] in P.
  rewrite <- P; [|discriminate|assumption].
  cbn [List.map]. destruct l as [|t' l'].
  - cbn [join List.map]. rewrite stringify_todoValue. reflexivity.
  - cbn [List.map].
    rewrite join_cons2, <- List.app_assoc, stringify_todoValue. reflexivity.
Qed.

Lemma length_stringify_todoValue t : (4 <= length (stringify (todoValue t)))%nat.
Proof.
  rewrite <- (List.app_nil_r (stringify _)), stringify_todoValue.
  cbn [length]. rewrite quote_app. cbn [length].
  rewrite List.length_app. cbn [length]. lia.
Qed.

Lemma length_join_todos l :
  (4 * length l <= length (join [ch ","] (List.map stringify (List.map todoValue l))))%nat.
Proof.
  induction l as [|t l IH]; [simpl; lia|].
  pose proof (length_stringify_todoValue t).
  destruct l as [|t' l'].
  - cbn [List.map join length]. lia.
  - cbn [List.map] in *. rewrite join_cons2, !List.length_app.
    cbn [length] in *. lia.
Qed.

Lemma parse_persisted l :
  Forall (fun todo => plainDecimal (Todo.id todo)) l ->
  parse (persisted l) = Returned (todosValue l).
Proof.
  intros R. destruct l as [|t l]; [reflexivity|].
  unfold parse, persisted.
  pose proof (length_join_todos (t :: l)) as L.
  assert (F : exists f, (2 * length (stringify (todosValue (t :: l))) + 1
                         = S (length (t :: l) + 6 + f))%nat).
  { exists (2 * length (stringify (todosValue (t :: l))) - (length (t :: l) + 6))%nat.
    unfold todosValue. cbn [stringify]. cbn [length] in *.
    rewrite List.length_app. cbn [length]. lia. }
  destruct F as (f & ->).
  rewrite <- (List.app_nil_r (stringify _)) at 1.
  now rewrite (parseValue_todosValue (t :: l) f [] R).
Qed.

Lemma priorityOfName_name p : priorityOfName (Todo.name p) = Some p.
Proof. now destruct p. Qed.

Lemma todoOfValue_todoValue t : todoOfValue (todoValue t) = Some t.
Proof.
  destruct t as [i x c p]. unfold todoValue, todoOfValue.
  cbn [Todo.id Todo.text Todo.completed Todo.priority].
  change (jsstring_eqb (lit "id") (lit "id")) with true.
  change (jsstring_eqb (lit "text") (lit "text")) with true.
  change (jsstring_eqb (lit "completed") (lit "completed")) with true.
  change (jsstring_eqb (lit "priority") (lit "priority")) with true.
  cbn [andb]. now rewrite priorityOfName_name.
Qed.

Lemma todosOfValue_todosValue l : todosOfValue (todosValue l) = Some l.
Proof.
  unfold todosOfValue, todosValue.
  induction l as [|t l IH]; [reflexivity|].
  cbn [List.map todosOfValues]. now rewrite todoOfValue_todoValue, IH.
Qed.

Lemma loadTodos_persisted l :
  Forall (fun todo => plainDecimal (Todo.id todo)) l ->
  loadTodos (Some (persisted l)) = Returned (todosValue l).
Proof.
  intros R. rewrite <- (parse_persisted l R).
  unfold persisted, todosValue. reflexivity.
Qed.

(** *** The fuel of the parser *)

Section Fuel.

Local Open Scope nat_scope.

Lemma skipWhiteSpace_length s : length (skipWhiteSpace s) <= length s.
Proof.
  induction s as [|c r IH]; simpl; [lia|].
  destruct (isJSONWhiteSpace c); simpl; lia.
Qed.

Lemma skipWhiteSpace_shorter s c r :
  skipWhiteSpace s = c :: r -> length r < length s.
Proof.
  intros H. pose proof (skipWhiteSpace_length s) as L.
  rewrite H in L. simpl in L. lia.
Qed.

Lemma parseChars_shorter_upto n : forall s str rest,
  length s <= n -> parseChars s = Some (str, rest) -> length rest < length s.
Proof.
  induction n as [|n IH]; intros s str rest L H.
  - destruct s; [discriminate | simpl in L; lia].
  - destruct s as [|c r]; [discriminate|]. cbn [parseChars] in H.
    destruct (c =? quotation_mark)%N.
    { injection H as _ <-. simpl. lia. }
    destruct (c =? reverse_solidus)%N.
    + destruct r as [|e r1]; [discriminate|].
      destruct (e =? ch "u")%N.
      * destruct r1 as [|h1 [|h2 [|h3 [|h4 r2]]]]; try discriminate.
        destruct (hex4 h1 h2 h3 h4); [|discriminate].
        destruct (parseChars r2) as [[str' rest']|] eqn:P; [|discriminate].
        injection H as _ <-. apply IH in P; simpl in *; lia.
      * destruct (simpleEscape e); [|discriminate].
        destruct (parseChars r1) as [[str' rest']|] eqn:P; [|discriminate].
        injection H as _ <-. apply IH in P; simpl in *; lia.
    + destruct (c <? 32)%N; [discriminate|].
      destruct (parseChars r) as [[str' rest']|] eqn:P; [|discriminate].
      injection H as _ <-. apply IH in P; simpl in *; lia.
Qed.

Lemma parseChars_shorter s str rest :
  parseChars s = Some (str, rest) -> length rest < length s.
Proof. apply (parseChars_shorter_upto (length s)). lia. Qed.

Lemma takeDigits_length s :
  length (fst (takeDigits s)) + length (snd (takeDigits s)) = length s.
Proof.
  induction s as [|c r IH]; [reflexivity|]. simpl.
  destruct (isDigit c); [|reflexivity].
  destruct (takeDigits r) as [ds rest]. simpl in *. lia.
Qed.

Lemma parseInt_shorter s ds rest :
  parseInt s = Some (ds, rest) -> length rest < length s.
Proof.
  destruct s as [|c r]; [discriminate|]. unfold parseInt.
  destruct (c =? ch "0")%N.
  - intros H. injection H as _ <-. simpl. lia.
  - pose proof (takeDigits_length (c :: r)) as L.
    destruct (takeDigits (c :: r)) as [[|d ds'] rest']; [discriminate|].
    intros H. injection H as _ <-. simpl in *. lia.
Qed.

Lemma parseFraction_length s ds rest :
  parseFraction s = Some (ds, rest) -> length rest <= length s.
Proof.
  destruct s as [|c r]; unfold parseFraction.
  - intros H. injection H as _ <-. lia.
  - destruct (c =? ch ".")%N.
    + pose proof (takeDigits_length r) as L.
      destruct (takeDigits r) as [[|d ds'] rest']; [discriminate|].
      intros H. injection H as _ <-. simpl in *. lia.
    + intros H. injection H as _ <-. lia.
Qed.

Lemma parseExponent_length s x rest :
  parseExponent s = Some (x, rest) -> length rest <= length s.
Proof.
  destruct s as [|c r]; unfold parseExponent.
  - intros H. injection H as _ <-. lia.
  - destruct ((c =? ch "e")%N || (c =? ch "E")%N).
    + destruct (parseSign r) as [negative r1] eqn:PS.
      assert (L1 : length r1 <= length r).
      { unfold parseSign in PS. destruct r as [|d r'].
        - injection PS as _ <-. lia.
        - destruct (d =? ch "-")%N; [injection PS as _ <-; simpl; lia|].
          destruct (d =? ch "+")%N; injection PS as _ <-; simpl; lia. }
      pose proof (takeDigits_length r1) as L.
      destruct (takeDigits r1) as [[|d ds'] rest']; [discriminate|].
      intros H. injection H as _ <-. simpl in *. lia.
    + intros H. injection H as _ <-. lia.
Qed.

Lemma parseNumber_shorter s n rest :
  parseNumber s = Some (n, rest) -> length rest < length s.
Proof.
  unfold parseNumber.
  destruct (parseMinus s) as [negative s1] eqn:PM.
  assert (L1 : length s1 <= length s).
  { unfold parseMinus in PM. destruct s as [|c r].
    - injection PM as _ <-. lia.
    - destruct (c =? ch "-")%N; injection PM as _ <-; simpl; lia. }
  destruct (parseInt s1) as [[int s2]|] eqn:PI; [|discriminate].
  destruct (parseFraction s2) as [[frac s3]|] eqn:PF; [|discriminate].
  destruct (parseExponent s3) as [[x rest']|] eqn:PX; [|discriminate].
  intros H. injection H as _ <-.
  apply parseInt_shorter in PI. apply parseFraction_length in PF.
  apply parseExponent_length in PX. lia.
Qed.

Lemma stripPrefix_length p : forall s rest,
  stripPrefix p s = Some rest -> length rest <= length s.
Proof.
  induction p as [|a p IH]; intros s rest H; simpl in H.
  - injection H as <-. lia.
  - destruct s as [|b s']; [discriminate|].
    destruct (a =? b)%N; [|discriminate]. apply IH in H. simpl. lia.
Qed.

Ltac split_parser H :=
  repeat match type of H with
  | context [match skipWhiteSpace ?s with _ => _ end] =>
      let W := fresh "W" in
      destruct (skipWhiteSpace s) as [|? ?] eqn:W;
      [discriminate H | apply skipWhiteSpace_shorter in W]
  | context [if ?b then _ else _] => destruct b
  | context [match parseChars ?s with _ => _ end] =>
      let P := fresh "P" in
      destruct (parseChars s) as [[? ?]|] eqn:P;
      [apply parseChars_shorter in P | discriminate H]
  | context [match stripPrefix ?p ?s with _ => _ end] =>
      let P := fresh "P" in
      destruct (stripPrefix p s) as [?|] eqn:P;
      [apply stripPrefix_length in P | discriminate H]
  | context [match parseNumber ?s with _ => _ end] =>
      let P := fresh "P" in
      destruct (parseNumber s) as [[? ?]|] eqn:P;
      [apply parseNumber_shorter in P | discriminate H]
  end.

Lemma parse_consumes fuel :
  consumes (parseValue fuel)
  /\ (forall acc, consumes (fun s => parseElements fuel s acc))
  /\ (forall acc, consumes (fun s => parseMembers fuel s acc)).
Proof.
  induction fuel as [|f (IHv & IHe & IHm)].
  - repeat split; intros; intros s v rest H; discriminate H.
  - split; [|split].
    + intros s v rest H. cbn [parseValue] in H.
      split_parser H;
        try (injection H as _ <-; simpl in *; lia);
        try discriminate H.
      * apply IHe in H. simpl in *. lia.
      * apply IHm in H. simpl in *. lia.
    + intros acc s v rest H. cbn [parseElements] in H.
      destruct (parseValue f s) as [v1 r1| |] eqn:V; try discriminate H.
      apply IHv in V.
      split_parser H;
        try (injection H as _ <-; simpl in *; lia);
        try discriminate H.
      apply IHe in H. simpl in *. lia.
    + intros acc s v rest H. cbn [parseMembers] in H.
      split_parser H; try discriminate H.
      match type of H with
      | context [parseValue f ?r] =>
          destruct (parseValue f r) as [v1 r1| |] eqn:V; try discriminate H
      end.
      apply IHv in V.
      split_parser H;
        try (injection H as _ <-; simpl in *; lia);
        try discriminate H.
      apply IHm in H. simpl in *. lia.
Qed.

(** The fuel that [JSON.parse] starts with is never used up. *)
Lemma parse_fuel_enough fuel :
  (forall s, 2 * length s < fuel -> parseValue fuel s <> OutOfFuel)
  /\ (forall s acc, 2 * length s + 1 < fuel -> parseElements fuel s acc <> OutOfFuel)
  /\ (forall s acc, 2 * length s + 1 < fuel -> parseMembers fuel s acc <> OutOfFuel).
Proof.
  induction fuel as [|f (IHv & IHe & IHm)].
  - repeat split; intros; lia.
  - split; [|split].
    + intros s L H. cbn [parseValue] in H.
      split_parser H; try discriminate H.
      * apply IHe in H; [exact H| simpl in *; lia].
      * apply IHm in H; [exact H| simpl in *; lia].
    + intros s acc L H. cbn [parseElements] in H.
      destruct (parseValue f s) as [v1 r1| |] eqn:V; try discriminate H.
      * apply (proj1 (parse_consumes f)) in V.
        split_parser H; try discriminate H.
        apply IHe in H; [exact H| simpl in *; lia].
      * apply IHv in V; [exact V|lia].
    + intros s acc L H. cbn [parseMembers] in H.
      split_parser H; try discriminate H.
      match type of H with
      | context [parseValue f ?r] =>
          destruct (parseValue f r) as [v1 r1| |] eqn:V; try discriminate H
      end.
      * apply (proj1 (parse_consumes f)) in V.
        split_parser H; try discriminate H.
        apply IHm in H; [exact H| simpl in *; lia].
      * apply IHv in V; [exact V| simpl in *; lia].
Qed.

Theorem parse_fuel text : parseValue (2 * length text + 1) text <> OutOfFuel.
Proof. apply (proj1 (parse_fuel_enough _)). lia. Qed.

End Fuel.

(** ** C4: the derived statistics *)







(** ** C6: loading *)

(** C6 (as stated, refuted): a saved string that is not JSON makes the
    initializer throw, and a saved string that is JSON but not a list of
    todos is handed on as it is; neither becomes the empty list. *)
Lemma loadTodos_does_not_recover :
  loadTodos (Some (lit "{")) = Threw SyntaxError
  /\ loadTodos (Some (lit "5")) = Returned (Number (Integral 5))
  /\ todosOfValue (Number (Integral 5)) = None.
Proof. repeat split. Qed.

Lemma parse_throws_only_SyntaxError text e :
  parse text = Threw e -> e = SyntaxError.
Proof.
  unfold parse. destruct (parseValue _ text) as [v rest| |];
    [destruct (skipWhiteSpace rest)|..]; congruence.
Qed.

(** C6 (amended): when nothing is saved, or the empty string, the
    initializer returns the empty list; for any other saved string it is
    [JSON.parse] of that string, with nothing to catch what that throws:
    a string that is not valid JSON makes the initializer throw a
    [SyntaxError], and valid JSON is returned whatever it holds. *)
Theorem loadTodos_spec :
  loadTodos None = Returned (Array [])
  /\ loadTodos (Some []) = Returned (Array [])
  /\ (forall text, text <> [] -> loadTodos (Some text) = parse text)
  /\ (forall text, text <> [] -> (forall v, parse text <> Returned v) ->
        loadTodos (Some text) = Threw SyntaxError)
  /\ (forall text v, parse text = Returned v ->
        loadTodos (Some text) = Returned v).
Proof.
  assert (P : forall text, text <> [] -> loadTodos (Some text) = parse text).
  { intros [|c r] H; [congruence|reflexivity]. }
  repeat split; auto.
  - intros text NE NV. rewrite (P text NE).
    destruct (parse text) as [v|e] eqn:E; [now destruct (NV v)|].
    now rewrite (parse_throws_only_SyntaxError text e E).
  - intros [|c r] v H; [discriminate H|]. now rewrite P.
Qed.

Lemma loadTodos_spec_witness :
  loadTodos (Some (lit "[1,]")) = Threw SyntaxError
  /\ loadTodos (Some (lit "[1]")) = Returned (Array [Number (Integral 1)]).
Proof.
  destruct loadTodos_spec as (_ & _ & _ & T & R).
  split.
  - apply T; [discriminate|]. intros v. vm_compute. discriminate.
  - apply R. reflexivity.
Defined.

(** ** C3: the round trip through localStorage *)

Lemma isTimeValue_plainDecimal now : isTimeValue now -> plainDecimal now.
Proof. unfold isTimeValue, plainDecimal. lia. Qed.

Lemma timeStamped_toggled id l : timeStamped l -> timeStamped (toggled id l).
Proof.
  unfold timeStamped, toggled. intros H. apply Forall_map.
  apply (Forall_impl _ (P := fun todo => isTimeValue (Todo.id todo))); [|exact H].
  intros t T. now destruct (Todo.id t =? id).
Qed.

Lemma timeStamped_without id l : timeStamped l -> timeStamped (without id l).
Proof.
  unfold timeStamped, without. intros H. apply Forall_forall.
  intros t I. apply filter_In in I. rewrite Forall_forall in H. now apply H.
Qed.

Lemma step_keeps_timeStamped backend a s :
  wellFormed a s -> timeStamped (todos s) ->
  timeStamped (todos (step backend a s)).
Proof.
  intros [C W] T. destruct a as [v| |now|id|id|newOrder|]; simpl in C, W.
  - exact T.
  - exact T.
  - rewrite todos_addTodo. destruct (jsstring_eqb _ _); auto.
    constructor; auto.
  - rewrite todos_toggleTodo. destruct (result _); auto using timeStamped_toggled.
  - rewrite todos_deleteTodo. destruct (result _); auto using timeStamped_without.
  - rewrite todos_reorder. unfold timeStamped in *.
    rewrite Forall_forall in *. intros todo I. apply T.
    now apply (Permutation_in todo W).
  - constructor.
Qed.

Lemma reachable_timeStamped backend s :
  reachable backend wellFormed s -> timeStamped (todos s).
Proof.
  induction 1 as [|a s R IH W].
  - constructor.
  - now apply step_keeps_timeStamped.
Qed.

(** C3: for the list of every state that a session of adds, toggles,
    deletions, reorderings and clearings reaches, the string the
    persistence effect writes, read by the initializer, gives back that
    list: the same todos in the same order, each with the same id, text,
    completed and priority. *)
Theorem persistence_round_trip backend s :
  reachable backend wellFormed s ->
  loadTodos (Some (persisted (todos s))) = Returned (todosValue (todos s))
  /\ todosOfValue (todosValue (todos s)) = Some (todos s).
Proof.
  intros R. split; [|apply todosOfValue_todosValue].
  apply loadTodos_persisted.
  apply reachable_timeStamped in R.
  apply (Forall_impl _ (P := fun todo => isTimeValue (Todo.id todo))); [|exact R].
  intros t. apply isTimeValue_plainDecimal.
Qed.

Lemma persistence_round_trip_witness :
  let s := step working (ToggleTodo 1700000000000)
             (step working (AddTodo 1700000000000)
                (step working (ChangeInput (lit " Buy milk\ 2l "))
                   TodoApp.initial)) in
  loadTodos (Some (persisted (todos s))) = Returned (todosValue (todos s))
  /\ todosOfValue (todosValue (todos s)) = Some (todos s).
Proof.
  intros s. apply (persistence_round_trip working).
  repeat (apply reachable_step;
          [| split; vm_compute; first [exact I | discriminate]]).
  apply reachable_initial.
Defined.

(* ===================================================================== *)
(** * Further properties of the sound engine *)
(* ===================================================================== *)

Ltac run_engine' :=
  cbv [perform play playClick playAdd playToggle playDelete playVictory playCredits
       scheduleVoices harmonics fire init createOscillator call setTimeout
       setEnabled bind get put emit ret throw
       result final trace fst snd audioCtx enabled negb app
       audio_calls timers delays count filter length
       isNewAudioContext isCreateOscillator isCreateGain isOscConnectGain
       isGainConnectDestination isOscStart isOscStop].

Ltac split_backend backend :=
  repeat match goal with
  | |- context [backend ?c] => destruct (backend c); run_engine'
  end.

(** X5: when the audio context cannot be constructed, a trigger method
    called on an engine without a context attempts the construction and
    nothing else, throws, and leaves the engine exactly as it was, so the
    next trigger tries again. *)
Theorem failed_construction backend x m e :
  backend NewAudioContext = Some x -> audioCtx e = None ->
  play backend m e = (Threw x, e, [Audio NewAudioContext]).
Proof.
  intros B C. destruct e as [ctx en]. simpl in C. subst ctx.
  destruct m as [ | |[|]| | | ]; run_engine'; rewrite B; reflexivity.
Qed.

Lemma failed_construction_witness :
  play no_audio_context PlayAdd SoundEngine.new
    = (Threw TypeError, SoundEngine.new, [Audio NewAudioContext]).
Proof.
  apply (failed_construction no_audio_context TypeError PlayAdd SoundEngine.new);
    reflexivity.
Defined.

Lemma perform_step backend r e :
  (audioCtx e <> None ->
     audioCtx (final (perform backend r e)) <> None
     /\ count isNewAudioContext (trace (perform backend r e)) = 0%nat)
  /\ (audioCtx e = None -> backend NewAudioContext = None ->
      if isTrigger r
      then audioCtx (final (perform backend r e)) <> None
           /\ count isNewAudioContext (trace (perform backend r e)) = 1%nat
      else audioCtx (final (perform backend r e)) = None
           /\ count isNewAudioContext (trace (perform backend r e)) = 0%nat).
Proof.
  destruct e as [[ctx|] en]; split; intros H; try (simpl in H; congruence).
  - clear H. destruct r as [m|cb|v].
    + destruct m as [ | |[|]| | | ]; destruct en; run_engine';
        split_backend backend; split; (discriminate || reflexivity).
    + destruct cb; destruct en; run_engine';
        split_backend backend; split; (discriminate || reflexivity).
    + run_engine'. split; (discriminate || reflexivity).
  - intros B. destruct r as [m|cb|v]; cbn [isTrigger].
    + destruct m as [ | |[|]| | | ]; destruct en; run_engine'; rewrite B; run_engine';
        split_backend backend; split; (discriminate || reflexivity).
    + destruct cb; destruct en; run_engine'; split; reflexivity.
    + run_engine'. split; reflexivity.
Qed.

Lemma audio_calls_app l1 l2 :
  audio_calls (l1 ++ l2) = audio_calls l1 ++ audio_calls l2.
Proof.
  induction l1 as [|[c|cb ms] l1 IH]; simpl; congruence.
Qed.

Lemma count_app p l1 l2 : count p (l1 ++ l2) = (count p l1 + count p l2)%nat.
Proof.
  unfold count. now rewrite audio_calls_app, filter_app, length_app.
Qed.

Lemma session_cons backend r rs e :
  session backend (r :: rs) e =
    (fst (session backend rs (final (perform backend r e))),
     trace (perform backend r e)
       ++ snd (session backend rs (final (perform backend r e)))).
Proof.
  cbn [session]. destruct (perform backend r e) as [[o e1] l1].
  unfold final, trace. cbn [fst snd].
  now destruct (session backend rs e1) as [e2 l2].
Qed.

(** X1: the audio context is constructed lazily and once: over any
    series of trigger calls, timers and switchings, on a backend whose
    constructor works, [new AudioContext()] is called once if the engine
    had no context and a trigger method is called, and not at all
    otherwise. *)
Theorem context_constructed_once backend rs e :
  backend NewAudioContext = None ->
  count isNewAudioContext (snd (session backend rs e))
    = match audioCtx e with
      | Some _ => 0%nat
      | None => if existsb isTrigger rs then 1%nat else 0%nat
      end.
Proof.
  intros B. revert e. induction rs as [|r rs IH]; intros e.
  - cbn. now destruct (audioCtx e).
  - rewrite session_cons. cbn [snd existsb]. rewrite count_app, IH.
    destruct (perform_step backend r e) as [A N].
    destruct (audioCtx e) as [ctx|] eqn:C.
    + destruct A as [A1 A2]; [discriminate|]. rewrite A2.
      destruct (audioCtx (final (perform backend r e))); [reflexivity|congruence].
    + specialize (N eq_refl B). destruct (isTrigger r); destruct N as [N1 N2];
        rewrite N2; cbn [orb].
      * destruct (audioCtx (final (perform backend r e))); [reflexivity|congruence].
      * now rewrite N1.
Qed.

Lemma context_constructed_once_witness :
  count isNewAudioContext
    (snd (session working
            [SetEnabled false; Trigger PlayAdd; Trigger PlayDelete;
             TimerFires (VictoryVoice 1); Trigger PlayVictory]
            SoundEngine.new)) = 1%nat.
Proof.
  apply (context_constructed_once working
           [SetEnabled false; Trigger PlayAdd; Trigger PlayDelete;
            TimerFires (VictoryVoice 1); Trigger PlayVictory]
           SoundEngine.new).
  reflexivity.
Defined.

Lemma engine_stays_active backend rs e :
  audioCtx e <> None -> audioCtx (fst (session backend rs e)) <> None.
Proof.
  revert e. induction rs as [|r rs IH]; intros e A; [exact A|].
  rewrite session_cons. cbn [fst]. apply IH.
  now apply (perform_step backend r e).
Qed.

Lemma engine_activation backend rs e :
  backend NewAudioContext = None ->
  (audioCtx (fst (session backend rs e)) <> None
   <-> audioCtx e <> None \/ existsb isTrigger rs = true).
Proof.
  intros B. revert e. induction rs as [|r rs IH]; intros e.
  - cbn. split; [tauto|]. intros [H|H]; [exact H|discriminate].
  - rewrite session_cons. cbn [fst existsb]. rewrite IH.
    destruct (perform_step backend r e) as [A N].
    destruct (audioCtx e) as [ctx|] eqn:C.
    + split; [left; discriminate|]. intros _. left. apply A. discriminate.
    + specialize (N eq_refl B). destruct (isTrigger r); destruct N as [N1 N2];
        cbn [orb].
      * split; [now right|]. intros _. now left.
      * rewrite N1. split; intros [H|H]; try congruence; now right.
Qed.

(** X2: the engine goes from uninitialized to active and never back:
    an engine with a context keeps it through any series of requests on
    any backend, and on a backend whose constructor works the engine is
    active afterwards exactly when it was before or a trigger method has
    been called. *)
Theorem engine_activates_for_good backend rs e :
  (audioCtx e <> None -> audioCtx (fst (session backend rs e)) <> None)
  /\ (backend NewAudioContext = None ->
      (audioCtx (fst (session backend rs e)) <> None
       <-> audioCtx e <> None \/ existsb isTrigger rs = true)).
Proof. split; [apply engine_stays_active | apply engine_activation]. Qed.

Lemma engine_activates_for_good_witness :
  audioCtx (fst (session working [SetEnabled false; Trigger PlayClick]
                   SoundEngine.new)) <> None.
Proof.
  apply (proj2 (engine_activates_for_good working
                  [SetEnabled false; Trigger PlayClick] SoundEngine.new));
    [reflexivity | right; reflexivity].
Defined.

Lemma perform_enabled backend r e :
  enabled (final (perform backend r e))
    = match r with SetEnabled val => val | _ => enabled e end.
Proof.
  destruct e as [[ctx|] en]; destruct r as [m|cb|v].
  - destruct m as [ | |[|]| | | ]; destruct en; run_engine';
      split_backend backend; reflexivity.
  - destruct cb; destruct en; run_engine'; split_backend backend; reflexivity.
  - reflexivity.
  - destruct m as [ | |[|]| | | ]; destruct en; run_engine';
      split_backend backend; reflexivity.
  - destruct cb; destruct en; run_engine'; reflexivity.
  - reflexivity.
Qed.

(** X3: no trigger method and no timer changes [enabled], whatever the
    backend does: after any series of requests the switch is what the
    last [setEnabled] made it, or what it was. *)
Theorem only_setEnabled_switches backend rs e :
  enabled (fst (session backend rs e)) = switchAfter rs (enabled e).
Proof.
  revert e. induction rs as [|r rs IH]; intros e; [reflexivity|].
  rewrite session_cons. cbn [fst]. rewrite IH, perform_enabled. reflexivity.
Qed.

Lemma perform_nodes backend r e :
  let l := trace (perform backend r e) in
  (count isOscStop l <= count isOscStart l
   /\ count isOscStart l <= count isGainConnectDestination l
   /\ count isGainConnectDestination l <= count isOscConnectGain l
   /\ count isOscConnectGain l <= count isCreateGain l
   /\ count isCreateGain l <= count isCreateOscillator l)%nat
  /\ (reliable backend -> count isCreateOscillator l = count isOscStop l).
Proof.
  intros l. subst l. split.
  - destruct e as [[ctx|] en]; destruct r as [m|cb|v];
      try (destruct m as [ | |[|]| | | ]); try destruct cb; destruct en;
      run_engine'; split_backend backend; repeat split; lia.
  - intros R. destruct e as [[ctx|] en]; destruct r as [m|cb|v];
      try (destruct m as [ | |[|]| | | ]); try destruct cb; destruct en;
      run_engine'; rewrite ?R; run_engine'; reflexivity.
Qed.

(** X4: over any series of requests the engine never starts an
    oscillator it has not created and connected through a gain to the
    destination, and never stops one it has not started; on a backend
    where no call fails every oscillator created is started and
    stopped. *)
Theorem nodes_started_and_stopped backend rs e :
  let l := snd (session backend rs e) in
  (count isOscStop l <= count isOscStart l
   /\ count isOscStart l <= count isGainConnectDestination l
   /\ count isGainConnectDestination l <= count isOscConnectGain l
   /\ count isOscConnectGain l <= count isCreateGain l
   /\ count isCreateGain l <= count isCreateOscillator l)%nat
  /\ (reliable backend -> count isCreateOscillator l = count isOscStop l).
Proof.
  revert e. induction rs as [|r rs IH]; intros e.
  - cbn. repeat split; lia.
  - cbv zeta. rewrite session_cons. cbn [snd]. rewrite !count_app.
    destruct (perform_nodes backend r e) as [C R].
    destruct (IH (final (perform backend r e))) as [C' R'].
    cbv zeta in *. split; [lia|]. intros H. rewrite (R H), (R' H). lia.
Qed.

Lemma nodes_started_and_stopped_witness :
  let l := snd (session working
                  [Trigger PlayAdd; TimerFires (VictoryVoice 2);
                   Trigger (PlayToggle true)]
                  SoundEngine.new) in
  count isCreateOscillator l = count isOscStop l.
Proof.
  apply (proj2 (nodes_started_and_stopped working
                  [Trigger PlayAdd; TimerFires (VictoryVoice 2);
                   Trigger (PlayToggle true)]
                  SoundEngine.new)).
  intros c. reflexivity.
Defined.

Lemma scheduleVoices_run hs : forall i e,
  scheduleVoices hs i e
    = (Returned tt, e,
       List.map (fun p => SetTimeout (VictoryVoice (fst p)) (snd p))
         (combine hs (List.map (fun k => ((i + N.of_nat k) * 150)%N)
                        (seq 0 (length hs))))).
Proof.
  induction hs as [|h hs IH]; intros i e; [reflexivity|].
  cbn [scheduleVoices]. unfold bind, setTimeout, emit. rewrite IH.
  cbn [length seq List.map combine fst snd app]. rewrite N.add_0_r.
  f_equal. f_equal. f_equal.
  rewrite <- seq_shift, List.map_map.
  f_equal. apply List.map_ext. intros k. f_equal. lia.
Qed.

(** X6: [playVictory] emits nothing itself.  On a backend whose
    constructor works it returns normally whatever else fails, makes no
    audio call besides constructing the context when there is none, and
    sets one timer per harmonic, 150 ms apart from 0 to 600 ms. *)
Theorem playVictory_only_schedules backend e :
  backend NewAudioContext = None ->
  result (play backend PlayVictory e) = Returned tt
  /\ audio_calls (trace (play backend PlayVictory e))
       = match audioCtx e with None => [NewAudioContext] | Some _ => [] end
  /\ timers (trace (play backend PlayVictory e)) = List.map VictoryVoice harmonics
  /\ delays (trace (play backend PlayVictory e)) = [0; 150; 300; 450; 600]%N.
Proof.
  intros B. destruct e as [[ctx|] en];
    cbv [play playVictory init bind get put call emit ret audioCtx enabled];
    rewrite ?B; rewrite scheduleVoices_run; repeat split.
Qed.

Lemma playVictory_only_schedules_witness :
  result (play Sample.constructorOnly PlayVictory SoundEngine.new) = Returned tt.
Proof.
  apply (playVictory_only_schedules Sample.constructorOnly SoundEngine.new).
  reflexivity.
Defined.

(** X7: the second tone of [playAdd], [playToggle(true)] and
    [playCredits] is governed by the engine at the time its timer fires,
    not at the time of the call: it is silent exactly when the engine
    then has no context or is disabled. *)
Theorem deferred_tone_obeys_switch backend m e cb e' :
  m <> PlayVictory ->
  In cb (timers (trace (play backend m e))) ->
  (audio_calls (trace (fire backend cb e')) = []
   <-> audioCtx e' = None \/ enabled e' = false).
Proof.
  intros Hm I.
  assert (D : exists f w d v, cb = DeferredOscillator f w d v).
  { destruct e as [[ctx|] en]; destruct m as [ | |[|]| | | ]; try congruence;
      destruct en; revert I; run_engine'; split_backend backend; simpl;
      intuition (subst; eauto). }
  destruct D as (f & w & d & v & ->).
  destruct e' as [[ctx'|] en']; destruct en'; run_engine';
    split_backend backend; simpl; split; intros H;
    try discriminate; try (now left); try (now right); try reflexivity;
    destruct H; discriminate.
Qed.

Lemma deferred_tone_obeys_switch_witness :
  audio_calls
    (trace (fire working (DeferredOscillator 600 sine (15 # 100) (5 # 100))
              {| audioCtx := Some TheAudioContext; enabled := false |})) = [].
Proof.
  apply (deferred_tone_obeys_switch working PlayAdd SoundEngine.new
           (DeferredOscillator 600 sine (15 # 100) (5 # 100))
           {| audioCtx := Some TheAudioContext; enabled := false |}).
  - discriminate.
  - vm_compute. left. reflexivity.
  - right. reflexivity.
Defined.

(* ===================================================================== *)
(** * Further properties of the handlers *)
(* ===================================================================== *)

Lemma play_returns backend m e :
  reliable backend -> result (play backend m e) = Returned tt.
Proof.
  intros R. destruct e as [[ctx|] en];
    destruct m as [ | |[|]| | | ]; destruct en; run_engine;
    rewrite ?R; reflexivity.
Qed.

Lemma dispatch_returns backend a s :
  reliable backend -> result (dispatch backend a s) = Returned tt.
Proof.
  intros R. destruct a as [v| |now|id|id|newOrder|]; try reflexivity.
  - unfold dispatch, handler, addTodo.
    destruct (jsstring_eqb _ _); [reflexivity|].
    unfold bind at 1. cbn [setTodos]. unfold bind at 1. cbn [setInputValue].
    match goal with |- context [callSound backend PlayAdd ?s'] =>
      pose proof (result_callSound backend PlayAdd s') as H;
      rewrite (play_returns backend PlayAdd _ R) in H;
      destruct (callSound backend PlayAdd s') as [[o s1] l1] end.
    unfold result in *. simpl in *. now subst o.
  - unfold dispatch, handler, toggleTodo.
    destruct (find _ (todos s)) as [todo|]; [|reflexivity]. unfold bind.
    pose proof (result_callSound backend (PlayToggle (negb (Todo.completed todo))) s) as H.
    rewrite (play_returns backend _ _ R) in H.
    destruct (callSound backend _ s) as [[o s1] l1].
    unfold result in *. simpl in *. now subst o.
  - unfold dispatch, handler, deleteTodo, bind.
    pose proof (result_callSound backend PlayDelete s) as H.
    rewrite (play_returns backend _ _ R) in H.
    destruct (callSound backend _ s) as [[o s1] l1].
    unfold result in *. simpl in *. now subst o.
Qed.

Lemma ids_without id l : ~ In id (ids (without id l)).
Proof.
  unfold ids, without. intros I. apply in_map_iff in I.
  destruct I as (t & E & I). apply filter_In in I. destruct I as [_ I].
  apply negb_true_iff in I. apply Z.eqb_neq in I. congruence.
Qed.

(** X8: after a [deleteTodo(id)] that returns, no todo has that id,
    the other todos are all still there and no other, and deleting the
    same id again changes nothing. *)
Theorem deleteTodo_removes backend id s :
  result (dispatch backend (DeleteTodo id) s) = Returned tt ->
  let s1 := step backend (DeleteTodo id) s in
  ~ In id (ids (todos s1))
  /\ (forall todo, In todo (todos s1) <-> In todo (todos s) /\ Todo.id todo <> id)
  /\ todos (step backend (DeleteTodo id) s1) = todos s1.
Proof.
  intros R s1.
  assert (E : todos s1 = without id (todos s)).
  { subst s1. now rewrite todos_deleteTodo, R. }
  split; [rewrite E; apply ids_without|]. split.
  - intros todo. rewrite E. unfold without.
    rewrite filter_In, negb_true_iff, Z.eqb_neq. tauto.
  - rewrite (todos_deleteTodo backend id s1).
    destruct (result (dispatch backend (DeleteTodo id) s1)); [|reflexivity].
    apply without_absent. rewrite E. apply ids_without.
Qed.

Lemma deleteTodo_removes_witness :
  ~ In 7 (ids (todos (step working (DeleteTodo 7) Sample.visit))).
Proof.
  apply (deleteTodo_removes working 7 Sample.visit). reflexivity.
Defined.

(** X9: adding a todo at a clock reading that is not yet an id and then
    deleting that id: when the deletion returns the list is as it was
    before the add; when it throws, which it does only if an audio call
    fails, the added todo is still at the head of the list. *)
Theorem add_then_delete backend now s :
  trim (inputValue s) <> [] -> ~ In now (ids (todos s)) ->
  let s1 := step backend (AddTodo now) s in
  (result (dispatch backend (DeleteTodo now) s1) = Returned tt ->
   todos (step backend (DeleteTodo now) s1) = todos s)
  /\ (forall x,
        result (dispatch backend (DeleteTodo now) s1) = Threw x ->
        todos (step backend (DeleteTodo now) s1)
          = {| Todo.id := now; Todo.text := inputValue s;
               Todo.completed := false; Todo.priority := priority s |}
            :: todos s)
  /\ (reliable backend ->
      result (dispatch backend (DeleteTodo now) s1) = Returned tt).
Proof.
  intros B F s1.
  assert (A : todos s1
                = {| Todo.id := now; Todo.text := inputValue s;
                     Todo.completed := false; Todo.priority := priority s |}
                  :: todos s).
  { subst s1. rewrite todos_addTodo.
    destruct (jsstring_eqb _ _) eqn:E; [apply jsstring_eqb_eq in E; tauto|].
    reflexivity. }
  split; [|split].
  - intros R. rewrite todos_deleteTodo, R, A.
    cbn [without filter Todo.id]. rewrite Z.eqb_refl. cbn [negb].
    now apply without_absent.
  - intros x R. now rewrite todos_deleteTodo, R.
  - intros R. now apply dispatch_returns.
Qed.

Lemma add_then_delete_witness :
  todos (step working (DeleteTodo 9) (step working (AddTodo 9) Sample.visit))
    = todos Sample.visit
  /\ todos (step no_audio_context (DeleteTodo 9)
              (step no_audio_context (AddTodo 9) Sample.visit))
     = {| Todo.id := 9; Todo.text := inputValue Sample.visit;
          Todo.completed := false; Todo.priority := priority Sample.visit |}
       :: todos Sample.visit.
Proof.
  split.
  - apply (add_then_delete working 9 Sample.visit).
    + vm_compute. discriminate.
    + vm_compute. intuition discriminate.
    + reflexivity.
  - apply (proj1 (proj2 (add_then_delete no_audio_context 9 Sample.visit
                           ltac:(vm_compute; discriminate)
                           ltac:(vm_compute; intuition discriminate)))
             TypeError).
    reflexivity.
Defined.

Lemma trim_nil : trim [] = [].
Proof. reflexivity. Qed.

Lemma inputValue_addTodo backend now s :
  inputValue (step backend (AddTodo now) s) =
    if jsstring_eqb (trim (inputValue s)) [] then inputValue s else [].
Proof.
  unfold step, dispatch, handler, addTodo.
  destruct (jsstring_eqb (trim (inputValue s)) []); [reflexivity|].
  unfold bind at 1. cbn [setTodos]. unfold bind at 1. cbn [setInputValue].
  match goal with |- context [callSound backend PlayAdd ?s'] =>
    run_sound backend PlayAdd s' end; reflexivity.
Qed.

(** X10: [addTodo] clears the input, so a second Enter right after the
    first does nothing at all (no todo, no sound), whether the first
    added a todo or not; any other key does nothing either. *)
Theorem enter_twice_adds_once backend now now' s :
  let s1 := Keyboard.press backend (lit "Enter") now s in
  Keyboard.handleKeyPress backend (lit "Enter") now' s1 s1 = (Returned tt, s1, [])
  /\ (forall key, key <> lit "Enter" ->
        Keyboard.handleKeyPress backend key now s s = (Returned tt, s, [])).
Proof.
  intros s1. split.
  - assert (B : trim (inputValue s1) = []).
    { subst s1. unfold Keyboard.press, Keyboard.handleKeyPress.
      change (jsstring_eqb (lit "Enter") (lit "Enter")) with true. cbv iota.
      change (final (addTodo backend now s s)) with (step backend (AddTodo now) s).
      rewrite inputValue_addTodo.
      destruct (jsstring_eqb _ _) eqn:E; [now apply jsstring_eqb_eq in E | reflexivity]. }
    unfold Keyboard.handleKeyPress.
    change (jsstring_eqb (lit "Enter") (lit "Enter")) with true. cbv iota.
    unfold addTodo. now rewrite B.
  - intros key K. unfold Keyboard.handleKeyPress.
    destruct (jsstring_eqb key (lit "Enter")) eqn:E; [|reflexivity].
    apply jsstring_eqb_eq in E. contradiction.
Qed.

Lemma enter_twice_adds_once_witness :
  Keyboard.handleKeyPress working (lit "a") 9 Sample.visit Sample.visit
    = (Returned tt, Sample.visit, []).
Proof.
  apply (enter_twice_adds_once working 9 10 Sample.visit).
  vm_compute. discriminate.
Defined.

Lemma without_toggled i j l : without i (toggled j l) = toggled j (without i l).
Proof.
  unfold without, toggled.
  induction l as [|t l IH]; [reflexivity|]. simpl.
  destruct (Todo.id t =? j) eqn:Ej; simpl;
    destruct (Todo.id t =? i) eqn:Ei; simpl; rewrite ?Ej; now rewrite IH.
Qed.

Lemma toggled_comm i j l : toggled i (toggled j l) = toggled j (toggled i l).
Proof.
  unfold toggled.
  induction l as [|t l IH]; [reflexivity|]. simpl. rewrite IH. f_equal.
  destruct (Todo.id t =? j) eqn:Ej; destruct (Todo.id t =? i) eqn:Ei;
    simpl; rewrite ?Ej, ?Ei; reflexivity.
Qed.

Lemma without_comm i j l : without i (without j l) = without j (without i l).
Proof.
  unfold without.
  induction l as [|t l IH]; [reflexivity|]. simpl.
  destruct (Todo.id t =? j) eqn:Ej; destruct (Todo.id t =? i) eqn:Ei;
    simpl; rewrite ?Ej, ?Ei; simpl; now rewrite ?IH.
Qed.

(** X11: on a backend where no call fails, toggles and deletions
    commute: the list after two of them does not depend on their order,
    for equal ids as for different ones. *)
Theorem toggle_delete_commute backend i j s :
  reliable backend ->
  todos (step backend (DeleteTodo i) (step backend (ToggleTodo j) s))
    = todos (step backend (ToggleTodo j) (step backend (DeleteTodo i) s))
  /\ todos (step backend (ToggleTodo i) (step backend (ToggleTodo j) s))
    = todos (step backend (ToggleTodo j) (step backend (ToggleTodo i) s))
  /\ todos (step backend (DeleteTodo i) (step backend (DeleteTodo j) s))
    = todos (step backend (DeleteTodo j) (step backend (DeleteTodo i) s)).
Proof.
  intros R.
  rewrite !todos_deleteTodo, !todos_toggleTodo, !todos_deleteTodo,
    !(dispatch_returns backend _ _ R).
  split; [apply without_toggled|]. split; [apply toggled_comm | apply without_comm].
Qed.

Lemma toggle_delete_commute_witness :
  todos (step working (DeleteTodo 5) (step working (ToggleTodo 7) Sample.visit))
    = todos (step working (ToggleTodo 7) (step working (DeleteTodo 5) Sample.visit)).
Proof.
  apply (toggle_delete_commute working 5 7 Sample.visit).
  intros c. reflexivity.
Defined.

Lemma find_unique id (l : list Todo.t) todo :
  NoDup (ids l) -> In todo l -> Todo.id todo = id ->
  find (fun t => Todo.id t =? id) l = Some todo.
Proof.
  induction l as [|t l IH]; intros D I E; [contradiction|].
  inversion D as [|? ? N D']; subst. cbn [find].
  destruct I as [->|I].
  - now rewrite Z.eqb_refl.
  - destruct (Z.eqb_spec (Todo.id t) (Todo.id todo)) as [E|E].
    + exfalso. apply N. rewrite E. unfold ids. now apply in_map.
    + now apply IH.
Qed.

(** X12: when ids are distinct, [toggleTodo(id)] invokes exactly
    [playToggle] with the new value of [completed] of the todo with that
    id, which is the value that todo has in the list afterwards. *)
Theorem toggle_sound_matches backend id s todo :
  NoDup (ids (todos s)) -> In todo (todos s) -> Todo.id todo = id ->
  invoked (trace (dispatch backend (ToggleTodo id) s))
    = [PlayToggle (negb (Todo.completed todo))]
  /\ (result (dispatch backend (ToggleTodo id) s) = Returned tt ->
      In (Todo.flip todo) (todos (step backend (ToggleTodo id) s))).
Proof.
  intros D I E. split.
  - unfold dispatch, handler, toggleTodo.
    rewrite (find_unique id (todos s) todo D I E). unfold bind.
    run_sound backend (PlayToggle (negb (Todo.completed todo))) s;
      unfold trace; cbn [snd setTodos]; rewrite ?List.app_nil_r;
      change (invoked (Invoke (PlayToggle (negb (Todo.completed todo)))
                         :: List.map Engine l))
        with (PlayToggle (negb (Todo.completed todo)) :: invoked (List.map Engine l));
      now rewrite invoked_engine.
  - intros R. rewrite todos_toggleTodo, R. unfold toggled.
    apply in_map_iff. exists todo. split; [|exact I].
    now rewrite E, Z.eqb_refl.
Qed.

Lemma toggle_sound_matches_witness :
  invoked (trace (dispatch working (ToggleTodo 7) Sample.visit))
    = [PlayToggle true].
Proof.
  apply (toggle_sound_matches working 7 Sample.visit Sample.milk).
  - vm_compute. apply NoDup_cons; [intros [H | []]; discriminate H|].
    apply NoDup_cons; [intros []|]. apply NoDup_nil.
  - left. reflexivity.
  - reflexivity.
Defined.

Lemma completedTasks_toggled id l todo :
  NoDup (ids l) -> In todo l -> Todo.id todo = id ->
  completedTasks (toggled id l)
    = if Todo.completed todo then (completedTasks l - 1)%nat
      else (completedTasks l + 1)%nat.
Proof.
  unfold completedTasks, toggled.
  induction l as [|t l IH]; intros D I E; [contradiction|].
  inversion D as [|? ? N D']; subst.
  destruct I as [->|I].
  - cbn [List.map filter]. rewrite Z.eqb_refl.
    fold (toggled (Todo.id todo) l). rewrite (toggled_absent _ _ N).
    destruct todo as [i x [|] p]; cbn [Todo.flip Todo.completed negb length]; lia.
  - assert (NE : Todo.id t <> Todo.id todo).
    { intros E. apply N. rewrite E. unfold ids. now apply in_map. }
    cbn [List.map filter]. apply Z.eqb_neq in NE. rewrite NE.
    specialize (IH D' I eq_refl).
    assert (P : (0 < length (filter (fun todo0 => Todo.completed todo0) l))%nat
                \/ Todo.completed todo = false).
    { destruct (Todo.completed todo) eqn:C; [left|now right].
      assert (In todo (filter (fun todo0 => Todo.completed todo0) l))
        by (apply filter_In; tauto).
      destruct (filter _ l); [contradiction|simpl; lia]. }
    destruct (Todo.completed t); cbn [length]; rewrite IH;
      destruct (Todo.completed todo); destruct P; try congruence; lia.
Qed.

(** X13: when ids are distinct, a [toggleTodo] that returns keeps the
    number of todos and moves the number of completed ones by exactly
    one: down if the todo was completed, up if it was not. *)
Theorem toggle_changes_one_count backend id s todo :
  NoDup (ids (todos s)) -> In todo (todos s) -> Todo.id todo = id ->
  result (dispatch backend (ToggleTodo id) s) = Returned tt ->
  let after := todos (step backend (ToggleTodo id) s) in
  totalTasks after = totalTasks (todos s)
  /\ completedTasks after
       = if Todo.completed todo then (completedTasks (todos s) - 1)%nat
         else (completedTasks (todos s) + 1)%nat.
Proof.
  intros D I E R after. subst after. rewrite todos_toggleTodo, R. split.
  - unfold totalTasks, toggled. apply length_map.
  - now apply completedTasks_toggled.
Qed.

Lemma toggle_changes_one_count_witness :
  completedTasks (todos (step working (ToggleTodo 5) Sample.visit)) = 0%nat.
Proof.
  apply (toggle_changes_one_count working 5 Sample.visit Sample.alice).
  - vm_compute. apply NoDup_cons; [intros [H | []]; discriminate H|].
    apply NoDup_cons; [intros []|]. apply NoDup_nil.
  - right. left. reflexivity.
  - reflexivity.
  - reflexivity.
Defined.

Lemma completedTasks_perm l l' :
  Permutation l l' -> completedTasks l = completedTasks l'.
Proof.
  intros P. unfold completedTasks. apply Permutation_length.
  induction P; simpl.
  - constructor.
  - destruct (Todo.completed x); auto.
  - destruct (Todo.completed x); destruct (Todo.completed y); auto. constructor.
  - etransitivity; eauto.
Qed.

(** X14: a reordering that permutes the list changes neither the
    statistics nor whether the goal badge is shown. *)
Theorem reorder_keeps_stats backend newOrder s :
  Permutation newOrder (todos s) ->
  stats (todos (step backend (Reorder newOrder) s)) = stats (todos s)
  /\ goalAchieved (todos (step backend (Reorder newOrder) s))
       = goalAchieved (todos s).
Proof.
  intros P. rewrite todos_reorder.
  assert (S : stats newOrder = stats (todos s)).
  { unfold stats, totalTasks.
    now rewrite (Permutation_length P), (completedTasks_perm _ _ P). }
  split; [exact S|]. unfold goalAchieved. rewrite S. unfold totalTasks.
  now rewrite (Permutation_length P).
Qed.

Lemma reorder_keeps_stats_witness :
  stats (todos (step working (Reorder [Sample.alice; Sample.milk]) Sample.visit))
    = stats (todos Sample.visit).
Proof.
  apply (reorder_keeps_stats working [Sample.alice; Sample.milk] Sample.visit).
  apply perm_swap.
Defined.

Lemma goal_below_200 :
  forallb (fun t =>
    forallb (fun c => Bool.eqb (goalOf c t) (Nat.eqb c t && Nat.ltb 0 t))
      (seq 0 (S t)))
    (seq 0 200) = true.
Proof. vm_compute. reflexivity. Qed.

Lemma completedTasks_all l :
  completedTasks l = length l <-> Forall (fun t => Todo.completed t = true) l.
Proof.
  unfold completedTasks. induction l as [|t l IH]; [simpl; split; auto|].
  cbn [filter length].
  pose proof (filter_length_le (fun todo => Todo.completed todo) l) as L.
  destruct (Todo.completed t) eqn:C; cbn [length]; split; intros H.
  - constructor; [exact C|]. apply IH. lia.
  - inversion H; subst. f_equal. now apply IH.
  - lia.
  - inversion H; congruence.
Qed.

(** X15: for a list of fewer than 200 todos the goal badge and the
    "Clear Finished Tasks" button are shown exactly when the list is not
    empty and every todo is completed. *)
Theorem goalAchieved_iff_all_completed todos :
  (length todos < 200)%nat ->
  (goalAchieved todos = true
   <-> todos <> [] /\ Forall (fun t => Todo.completed t = true) todos).
Proof.
  intros L. pose proof goal_below_200 as G.
  rewrite forallb_forall in G.
  assert (It : In (totalTasks todos) (seq 0 200)).
  { apply in_seq. unfold totalTasks. lia. }
  specialize (G _ It). rewrite forallb_forall in G.
  assert (Ic : In (completedTasks todos) (seq 0 (S (totalTasks todos)))).
  { apply in_seq. unfold completedTasks, totalTasks.
    pose proof (filter_length_le (fun todo => Todo.completed todo) todos). lia. }
  specialize (G _ Ic). apply eqb_prop in G.
  change (goalAchieved todos) with (goalOf (completedTasks todos) (totalTasks todos)).
  rewrite G, andb_true_iff, Nat.eqb_eq, Nat.ltb_lt.
  unfold totalTasks at 1 2. rewrite completedTasks_all.
  destruct todos; simpl; split; intros [A B]; split; auto; try congruence; lia.
Qed.

Lemma goalAchieved_iff_all_completed_witness :
  goalAchieved [Sample.alice; Todo.flip Sample.milk] = true.
Proof.
  apply (goalAchieved_iff_all_completed [Sample.alice; Todo.flip Sample.milk]).
  - simpl. lia.
  - split; [discriminate|]. repeat constructor.
Defined.

Lemma goal_with_one_left :
  forallb (fun t => goalOf (t - 1) t) (seq 200 801) = true.
Proof. vm_compute. reflexivity. Qed.

(** X16: from 200 todos on (checked up to 1000) the badge and the
    "Clear Finished Tasks" button are also shown when one todo is not
    completed, the percentage being rounded to 100. *)
Theorem goalAchieved_with_one_left todos :
  (200 <= length todos <= 1000)%nat ->
  completedTasks todos = (length todos - 1)%nat ->
  goalAchieved todos = true.
Proof.
  intros L C. pose proof goal_with_one_left as G.
  rewrite forallb_forall in G.
  change (goalAchieved todos) with (goalOf (completedTasks todos) (totalTasks todos)).
  unfold totalTasks. rewrite C. apply G. apply in_seq. lia.
Qed.

Lemma goalAchieved_with_one_left_witness :
  goalAchieved (Sample.milk :: repeat Sample.alice 199) = true.
Proof.
  apply (goalAchieved_with_one_left (Sample.milk :: repeat Sample.alice 199)).
  - cbn [length]. rewrite repeat_length. lia.
  - vm_compute. reflexivity.
Defined.

(** X17: the priority button cycles through the three levels: three
    presses give back the priority, one or two never do, and the list
    and the input are not touched. *)
Theorem priority_cycles backend s :
  let s1 := step backend ChangePriority s in
  let s2 := step backend ChangePriority s1 in
  let s3 := step backend ChangePriority s2 in
  priority s3 = priority s
  /\ priority s1 <> priority s /\ priority s2 <> priority s
  /\ priority s1 <> priority s2
  /\ todos s3 = todos s /\ inputValue s3 = inputValue s.
Proof.
  destruct s as [l v [| |] e]; cbn; repeat split; discriminate.
Qed.

Lemma soundEngine_enabled_play backend m e :
  enabled (final (play backend m e)) = enabled e.
Proof.
  destruct e as [[ctx|] en]; destruct m as [ | |[|]| | | ]; destruct en;
    run_engine;
    repeat match goal with
    | |- context [backend ?c] => destruct (backend c); run_engine
    end; reflexivity.
Qed.

Lemma callSound_final backend m s :
  final (callSound backend m s)
    = {| todos := todos s; inputValue := inputValue s; priority := priority s;
         soundEngine := final (play backend m (soundEngine s)) |}.
Proof.
  unfold callSound. now destruct (play backend m (soundEngine s)) as [[o e] l].
Qed.

Lemma step_frame backend a s :
  priority (step backend a s)
    = match a with ChangePriority => nextPriority (priority s) | _ => priority s end
  /\ inputValue (step backend a s)
     = match a with
       | ChangeInput v => v
       | AddTodo _ => if jsstring_eqb (trim (inputValue s)) [] then inputValue s else []
       | _ => inputValue s
       end
  /\ enabled (soundEngine (step backend a s)) = enabled (soundEngine s).
Proof.
  destruct a as [v| |now|id|id|newOrder|]; try (repeat split; reflexivity).
  - split; [|split; [apply inputValue_addTodo|]];
      unfold step, dispatch, handler, addTodo;
      (destruct (jsstring_eqb (trim (inputValue s)) []); [reflexivity|]);
      unfold bind at 1; cbn [setTodos]; unfold bind at 1; cbn [setInputValue];
      match goal with |- context [callSound backend PlayAdd ?s'] =>
        pose proof (callSound_final backend PlayAdd s') as F;
        destruct (callSound backend PlayAdd s') as [[o s1] l1] end;
      unfold final in F; cbn [fst snd] in *; subst s1; cbn;
      try reflexivity; apply (soundEngine_enabled_play backend PlayAdd).
  - unfold step, dispatch, handler, toggleTodo.
    destruct (find _ (todos s)) as [todo|]; [|repeat split; reflexivity].
    unfold bind.
    pose proof (callSound_final backend (PlayToggle (negb (Todo.completed todo))) s) as F.
    destruct (callSound backend _ s) as [[[|] s1] l1];
      unfold final in F; cbn [fst snd] in *; subst s1; cbn;
      repeat split; apply (soundEngine_enabled_play backend (PlayToggle _)).
  - unfold step, dispatch, handler, deleteTodo, bind.
    pose proof (callSound_final backend PlayDelete s) as F.
    destruct (callSound backend _ s) as [[[|] s1] l1];
      unfold final in F; cbn [fst snd] in *; subst s1; cbn;
      repeat split; apply (soundEngine_enabled_play backend PlayDelete).
Qed.

(** X18: what the handlers do not touch: only the priority button
    changes the selected priority, only typing and adding change the
    input, and typing and the priority button neither change the list nor
    make a sound. *)
Theorem handlers_leave_alone backend a s :
  (a <> ChangePriority -> priority (step backend a s) = priority s)
  /\ ((forall v, a <> ChangeInput v) -> (forall now, a <> AddTodo now) ->
      inputValue (step backend a s) = inputValue s)
  /\ ((exists v, a = ChangeInput v) \/ a = ChangePriority ->
      todos (step backend a s) = todos s /\ trace (dispatch backend a s) = []).
Proof.
  destruct (step_frame backend a s) as (P & I & _).
  split; [|split].
  - intros N. rewrite P. destruct a; congruence.
  - intros N1 N2. rewrite I. destruct a; try reflexivity.
    + now destruct (N1 v).
    + now destruct (N2 now).
  - intros [[v ->]| ->]; split; reflexivity.
Qed.

Lemma handlers_leave_alone_witness :
  priority (step working (DeleteTodo 7) Sample.visit) = priority Sample.visit
  /\ inputValue (step working (ToggleTodo 7) Sample.visit)
       = inputValue Sample.visit
  /\ todos (step working ChangePriority Sample.visit) = todos Sample.visit.
Proof.
  destruct (handlers_leave_alone working (DeleteTodo 7) Sample.visit)
    as (P & _ & _).
  destruct (handlers_leave_alone working (ToggleTodo 7) Sample.visit)
    as (_ & I & _).
  destruct (handlers_leave_alone working ChangePriority Sample.visit)
    as (_ & _ & T).
  split; [apply P; discriminate|].
  split; [apply I; discriminate|].
  apply T. right. reflexivity.
Defined.

(** X19: no handler of the component ever switches the sound engine
    off: in every state a session reaches, [enabled] is true. *)
Theorem app_never_mutes backend ok s :
  reachable backend ok s -> enabled (soundEngine s) = true.
Proof.
  induction 1 as [|a s R IH O]; [reflexivity|].
  destruct (step_frame backend a s) as (_ & _ & E). now rewrite E.
Qed.

Lemma app_never_mutes_witness :
  enabled (soundEngine (step working (AddTodo 1000)
                          (step working (ChangeInput (lit "a")) TodoApp.initial)))
    = true.
Proof.
  apply (app_never_mutes working (fun _ _ => True)).
  repeat (apply reachable_step; [|exact I]). apply reachable_initial.
Defined.

(** X20: in every state a session reaches from the empty list, no todo
    has a text that is empty or white space only. *)
Theorem texts_never_blank backend s :
  reachable backend reorderPermutes s ->
  Forall (fun todo => trim (Todo.text todo) <> []) (todos s).
Proof.
  induction 1 as [|a s R IH W]; [constructor|].
  destruct a as [v| |now|id|id|newOrder|]; cbn in W.
  - exact IH.
  - exact IH.
  - rewrite todos_addTodo. destruct (jsstring_eqb _ _) eqn:E; [exact IH|].
    constructor; [|exact IH]. cbn [Todo.text].
    intros B. rewrite <- jsstring_eqb_eq in B. congruence.
  - rewrite todos_toggleTodo. destruct (result _); [|exact IH].
    unfold toggled. apply Forall_map.
    eapply Forall_impl; [|exact IH]. intros t T. now destruct (Todo.id t =? id).
  - rewrite todos_deleteTodo. destruct (result _); [|exact IH].
    rewrite Forall_forall in *. intros t I. apply filter_In in I. now apply IH.
  - rewrite todos_reorder. rewrite Forall_forall in *. intros t I.
    apply IH. now apply (Permutation_in t W).
  - constructor.
Qed.

Lemma texts_never_blank_witness :
  Forall (fun todo => trim (Todo.text todo) <> [])
    (todos (step working (AddTodo 1000)
              (step working (ChangeInput (lit " a ")) TodoApp.initial))).
Proof.
  apply (texts_never_blank working).
  repeat (apply reachable_step; [|exact I]). apply reachable_initial.
Defined.

(** X21: the string written to localStorage determines the list: two
    lists of time-stamped todos that are saved as the same string are the
    same list. *)
Theorem persisted_injective l l' :
  timeStamped l -> timeStamped l' -> persisted l = persisted l' -> l = l'.
Proof.
  intros T T' E.
  assert (P : forall k, timeStamped k ->
                loadTodos (Some (persisted k)) = Returned (todosValue k)).
  { intros k Tk. apply loadTodos_persisted.
    eapply Forall_impl; [|exact Tk]. intros t. apply isTimeValue_plainDecimal. }
  pose proof (P l T) as A. pose proof (P l' T') as B. rewrite E in A.
  assert (V : todosValue l = todosValue l') by congruence.
  pose proof (todosOfValue_todosValue l) as C. rewrite V in C.
  rewrite todosOfValue_todosValue in C. congruence.
Qed.

Lemma persisted_injective_witness :
  toggled 7 (toggled 7 [Sample.milk; Sample.alice]) = [Sample.milk; Sample.alice].
Proof.
  apply (persisted_injective (toggled 7 (toggled 7 [Sample.milk; Sample.alice]))
           [Sample.milk; Sample.alice]).
  - repeat constructor; vm_compute; discriminate.
  - repeat constructor; vm_compute; discriminate.
  - vm_compute. reflexivity.
Defined.

Lemma sorted_without id l :
  StronglySorted Z.gt (ids l) -> StronglySorted Z.gt (ids (without id l)).
Proof.
  induction l as [|t l IH]; intros S; [constructor|].
  cbn [ids List.map] in S. apply StronglySorted_inv in S. destruct S as [S F].
  cbn [without filter]. destruct (negb (Todo.id t =? id)); [|now apply IH].
  cbn [ids List.map]. constructor; [now apply IH|].
  rewrite Forall_forall in *. intros i I. apply F.
  unfold ids, without in *. apply in_map_iff in I. destruct I as (u & E & I).
  apply filter_In in I. apply in_map_iff. exists u. tauto.
Qed.

(** X22: as long as nothing is reordered and the clock of every add
    is later than every id in the list, the list is in order of creation,
    newest first: the ids are strictly decreasing. *)
Theorem newest_first backend s :
  reachable backend laterClock s -> StronglySorted Z.gt (ids (todos s)).
Proof.
  induction 1 as [|a s R IH W]; [constructor|].
  destruct a as [v| |now|id|id|newOrder|]; cbn in W.
  - exact IH.
  - exact IH.
  - rewrite todos_addTodo. destruct (jsstring_eqb _ _); [exact IH|].
    cbn [ids List.map Todo.id]. constructor; [exact IH|].
    apply Forall_forall. intros i I. apply Z.lt_gt. now apply W.
  - rewrite todos_toggleTodo. destruct (result _); [|exact IH].
    now rewrite ids_toggled.
  - rewrite todos_deleteTodo. destruct (result _); [|exact IH].
    now apply sorted_without.
  - contradiction.
  - constructor.
Qed.

Lemma newest_first_witness :
  StronglySorted Z.gt
    (ids (todos (step working (AddTodo 1001)
                   (step working (ChangeInput (lit "b"))
                      (step working (AddTodo 1000)
                         (step working (ChangeInput (lit "a"))
                            TodoApp.initial)))))).
Proof.
  apply (newest_first working).
  apply reachable_step; [| vm_compute; intros i [<- | []]; reflexivity].
  apply reachable_step; [| exact I].
  apply reachable_step; [| vm_compute; intros i []].
  apply reachable_step; [| exact I].
  apply reachable_initial.
Defined.

(* ===================================================================== *)
(** * The loading screen and the celebration *)
(* ===================================================================== *)

Section Loading.

Import LoadingScreen.

Lemma ticks_cleared n s : progressInterval s = false -> ticks n s = s.
Proof.
  intros C. induction n as [|n IH]; [reflexivity|].
  cbn [ticks]. unfold tick. now rewrite C.
Qed.

Lemma ticks_add a b s : ticks (a + b) s = ticks b (ticks a s).
Proof. revert s. induction a as [|a IH]; intros s; [reflexivity|]. cbn. apply IH. Qed.

(** X23: the loading screen: after [n] periods of the interval the
    progress is [min (2 n) 100], never above 100 and never decreasing,
    and the screen is left, and the interval cleared, at the 51st period
    and not before. *)
Theorem loading_progress n :
  ticks n mount
    = {| loading := Nat.leb n 50;
         loadingProgress := Float64.of_Z (Z.min (2 * Z.of_nat n) 100);
         progressInterval := Nat.leb n 50 |}.
Proof.
  destruct (Nat.le_gt_cases n 51) as [L|G].
  - do 52 (destruct n as [|n]; [vm_compute; reflexivity|]). lia.
  - replace n with (51 + (n - 51))%nat by lia.
    rewrite ticks_add.
    replace (ticks 51 mount)
      with {| loading := false; loadingProgress := Float64.of_Z 100;
              progressInterval := false |} by (vm_compute; reflexivity).
    rewrite ticks_cleared by reflexivity.
    replace (Nat.leb (51 + (n - 51)) 50) with false
      by (symmetry; apply Nat.leb_gt; lia).
    now replace (Z.min (2 * Z.of_nat (51 + (n - 51))) 100) with 100 by lia.
Qed.
End Loading.

Import Celebration.

Lemma makeParticle_fields random k now i r :
  ref (fst (makeParticle random k now i r)) = r
  /\ id (fst (makeParticle random k now i r)) = now + Z.of_nat i.
Proof. split; reflexivity. Qed.

Lemma makeParticles_refs random clock n : forall k i r,
  List.map ref (makeParticles random clock n k i r) = seq r n.
Proof.
  induction n as [|n IH]; intros k i r; [reflexivity|].
  cbn [makeParticles].
  destruct (makeParticle random k (clock i) i r) as [p k'] eqn:E.
  cbn [List.map seq]. rewrite IH. f_equal.
  pose proof (makeParticle_fields random k (clock i) i r) as [R _].
  now rewrite E in R.
Qed.

Lemma makeParticles_ids random clock n : forall k i r,
  List.map id (makeParticles random clock n k i r)
    = List.map (fun j => clock j + Z.of_nat j) (seq i n).
Proof.
  induction n as [|n IH]; intros k i r; [reflexivity|].
  cbn [makeParticles].
  destruct (makeParticle random k (clock i) i r) as [p k'] eqn:E.
  cbn [List.map seq]. rewrite IH. f_equal.
  pose proof (makeParticle_fields random k (clock i) i r) as [_ I].
  now rewrite E in I.
Qed.

Lemma ids_increasing clock n : forall i,
  (forall j, (i <= j < i + n - 1)%nat -> clock j <= clock (S j)) ->
  StronglySorted Z.lt (List.map (fun j => clock j + Z.of_nat j) (seq i n)).
Proof.
  induction n as [|n IH]; intros i M; [constructor|].
  cbn [seq List.map]. constructor.
  - apply IH. intros j J. apply M. lia.
  - apply Forall_forall. intros v V. apply in_map_iff in V.
    destruct V as (j & <- & J). apply in_seq in J.
    assert (C : forall d, (i + d < i + S n)%nat -> clock i <= clock (i + d)%nat).
    { induction d as [|d IHd]; intros D.
      - rewrite Nat.add_0_r. lia.
      - rewrite Nat.add_succ_r. etransitivity; [apply IHd; lia|].
        apply M. lia. }
    specialize (C (j - i)%nat). replace (i + (j - i))%nat with j in C by lia.
    specialize (C ltac:(lia)). lia.
Qed.

(** X24: [triggerBurst] appends exactly twenty particles after the
    ones that are there; when the clock does not run backwards during
    the call their ids are strictly increasing, hence distinct; and the
    particles stay distinct objects. *)
Theorem burst_particles random clock s :
  let s1 := fst (triggerBurst random clock s) in
  let newParticles := makeParticles random clock 20 0 0 (nextRef s) in
  particles s1 = particles s ++ newParticles
  /\ length newParticles = 20%nat
  /\ ((forall j, (j < 19)%nat -> clock j <= clock (S j)) ->
      StronglySorted Z.lt (List.map id newParticles))
  /\ (allocated s -> allocated s1).
Proof.
  intros s1 newParticles. split; [reflexivity|]. split; [|split].
  - rewrite <- (length_map ref). subst newParticles.
    rewrite makeParticles_refs. apply length_seq.
  - intros M. subst newParticles. rewrite makeParticles_ids.
    apply ids_increasing. intros j J. apply M. lia.
  - intros [D A]. split.
    + subst s1. cbn [triggerBurst fst particles]. rewrite List.map_app.
      fold newParticles. subst newParticles. rewrite makeParticles_refs.
      apply NoDup_app; [exact D | apply seq_NoDup|].
      intros r I. rewrite in_seq.
      rewrite Forall_forall in A. apply in_map_iff in I.
      destruct I as (p & <- & I). specialize (A p I). lia.
    + subst s1. cbn [triggerBurst fst particles nextRef].
      apply Forall_app. split.
      * eapply Forall_impl; [|exact A]. intros p. simpl. lia.
      * apply Forall_forall. intros p I.
        assert (R : In (ref p) (List.map ref newParticles)) by now apply in_map.
        subst newParticles. rewrite makeParticles_refs in R.
        apply in_seq in R. lia.
Qed.

Lemma burst_particles_witness :
  StronglySorted Z.lt
    (List.map id (makeParticles Sample.steady Sample.frozen 20 0 0 0)).
Proof.
  apply (burst_particles Sample.steady Sample.frozen Sample.quiet).
  intros j _. unfold Sample.frozen. lia.
Defined.

Lemma includes_spec newParticles p :
  includes newParticles p = true <-> In (ref p) (List.map ref newParticles).
Proof.
  unfold includes. rewrite existsb_exists, in_map_iff.
  split; intros (q & A & B).
  - exists q. apply Nat.eqb_eq in B. now split.
  - exists q. split; [exact B|]. now apply Nat.eqb_eq.
Qed.

Lemma filter_keeps_all {A} (f : A -> bool) l :
  (forall a, In a l -> f a = true) -> filter f l = l.
Proof.
  induction l as [|a l IH]; intros H; [reflexivity|]. cbn [filter].
  rewrite (H a (or_introl eq_refl)). f_equal. apply IH. intros b I. apply H. now right.
Qed.

Lemma filter_drops_all {A} (f : A -> bool) l :
  (forall a, In a l -> f a = false) -> filter f l = [].
Proof.
  induction l as [|a l IH]; intros H; [reflexivity|]. cbn [filter].
  rewrite (H a (or_introl eq_refl)). apply IH. intros b I. apply H. now right.
Qed.

(** Removing the particles of a burst from a list that holds older
    particles, the burst, and younger particles. *)
Lemma remove_burst old newer random clock r :
  Forall (fun p => (ref p < r)%nat) old ->
  Forall (fun p => (r + 20 <= ref p)%nat) newer ->
  filter (fun p => negb (includes (makeParticles random clock 20 0 0 r) p))
    (old ++ makeParticles random clock 20 0 0 r ++ newer)
    = old ++ newer.
Proof.
  intros O Y. rewrite !filter_app.
  rewrite (filter_keeps_all _ old), (filter_drops_all _ (makeParticles _ _ _ _ _ _)),
    (filter_keeps_all _ newer); [reflexivity|..].
  - intros p I. rewrite Forall_forall in Y. specialize (Y p I).
    apply negb_true_iff. destruct (includes _ p) eqn:E; [|reflexivity].
    apply includes_spec in E. rewrite makeParticles_refs in E.
    apply in_seq in E. lia.
  - intros p I. apply negb_false_iff. apply includes_spec. now apply in_map.
  - intros p I. rewrite Forall_forall in O. specialize (O p I).
    apply negb_true_iff. destruct (includes _ p) eqn:E; [|reflexivity].
    apply includes_spec in E. rewrite makeParticles_refs in E.
    apply in_seq in E. lia.
Qed.

(** X25: a burst is transient: its five timers fire in the order
    300, 400, 800, 1000, 6500 ms, and once they have fired the particles
    are those from before the burst, the shockwaves those from before
    that do not have the id of the burst's, the shake is over and the
    celebration overlay is closed. *)
Theorem burst_is_transient backend random clock s :
  allocated s ->
  let s1 := fst (triggerBurst random clock s) in
  let s2 := runAll backend (inFiringOrder (snd (triggerBurst random clock s))) s1 in
  List.map fst (inFiringOrder (snd (triggerBurst random clock s)))
    = [ImpactOff; Celebrate;
       RemoveShockwave {| shockwaveId := clock 20%nat |};
       RemoveParticles (makeParticles random clock 20 0 0 (nextRef s));
       CelebrationOff]
  /\ impact s1 = true
  /\ particles s2 = particles s
  /\ shockwaves s2
       = filter (fun w => negb (shockwaveId w =? clock 20%nat)) (shockwaves s)
  /\ impact s2 = false
  /\ showCelebration s2 = false.
Proof.
  intros [_ A] s1 s2. split; [reflexivity|]. split; [reflexivity|].
  subst s2 s1.
  change (inFiringOrder (snd (triggerBurst random clock s)))
    with [(ImpactOff, 300%N); (Celebrate, 400%N);
          (RemoveShockwave {| shockwaveId := clock 20%nat |}, 800%N);
          (RemoveParticles (makeParticles random clock 20 0 0 (nextRef s)), 1000%N);
          (CelebrationOff, 6500%N)].
  cbn [runAll run triggerBurst fst particles shockwaves impact showCelebration
       nextRef soundEngine].
  destruct (play backend PlayVictory (soundEngine s)) as [[o e] l].
  cbn [runAll run triggerBurst fst particles shockwaves impact showCelebration
       nextRef soundEngine shockwaveId].
  repeat split.
  - pose proof (remove_burst (particles s) [] random clock (nextRef s) A
                  (Forall_nil _)) as R.
    now rewrite !List.app_nil_r in R.
  - rewrite filter_app. cbn [filter shockwaveId]. rewrite Z.eqb_refl.
    cbn [negb]. apply List.app_nil_r.
Qed.

Lemma burst_is_transient_witness :
  particles (runAll working
               (inFiringOrder
                  (snd (triggerBurst Sample.steady Sample.frozen Sample.quiet)))
               (fst (triggerBurst Sample.steady Sample.frozen Sample.quiet)))
    = [].
Proof.
  apply (burst_is_transient working Sample.steady Sample.frozen Sample.quiet).
  split; constructor.
Defined.

(** X26: two bursts that overlap: the clean-up of either removes its
    own particles and leaves the other's, whatever their ids, because
    particles are compared as objects; shockwaves are compared by id, so
    the clean-up of the first burst also removes the shockwave of the
    second when both were created at the same clock reading. *)
Theorem overlapping_bursts backend random clock random' clock' s :
  allocated s ->
  let newA := makeParticles random clock 20 0 0 (nextRef s) in
  let newB := makeParticles random' clock' 20 0 0 (nextRef s + 20) in
  let s2 := fst (triggerBurst random' clock' (fst (triggerBurst random clock s))) in
  particles s2 = particles s ++ newA ++ newB
  /\ particles (fst (run backend (RemoveParticles newA) s2)) = particles s ++ newB
  /\ particles (fst (run backend (RemoveParticles newB) s2)) = particles s ++ newA
  /\ shockwaves (fst (run backend
                        (RemoveShockwave {| shockwaveId := clock 20%nat |}) s2))
       = filter (fun w => negb (shockwaveId w =? clock 20%nat)) (shockwaves s)
         ++ (if clock' 20%nat =? clock 20%nat then []
             else [{| shockwaveId := clock' 20%nat |}]).
Proof.
  intros [_ A] newA newB s2. subst s2.
  cbn [triggerBurst fst particles shockwaves nextRef run shockwaveId].
  fold newA. fold newB. rewrite <- !List.app_assoc.
  split; [reflexivity|]. split; [|split].
  - subst newA newB. apply remove_burst; [exact A|].
    apply Forall_forall. intros p I.
    assert (R : In (ref p) (List.map ref (makeParticles random' clock' 20 0 0 (nextRef s + 20))))
      by now apply in_map.
    rewrite makeParticles_refs in R. apply in_seq in R. lia.
  - subst newA newB.
    pose proof (remove_burst (particles s ++ makeParticles random clock 20 0 0 (nextRef s))
                  [] random' clock' (nextRef s + 20)) as R.
    rewrite !List.app_nil_r, <- !List.app_assoc in R. apply R; [|constructor].
    apply Forall_app. split.
    + eapply Forall_impl; [|exact A]. intros p. simpl. lia.
    + apply Forall_forall. intros p I.
      assert (Q : In (ref p) (List.map ref (makeParticles random clock 20 0 0 (nextRef s))))
        by now apply in_map.
      rewrite makeParticles_refs in Q. apply in_seq in Q. lia.
  - rewrite !filter_app. cbn [filter shockwaveId]. rewrite Z.eqb_refl.
    cbn [negb app]. now destruct (clock' 20%nat =? clock 20%nat).
Qed.

Lemma overlapping_bursts_witness :
  shockwaves
    (fst (run working (RemoveShockwave {| shockwaveId := 1000 |})
            (fst (triggerBurst Sample.steady Sample.frozen
                    (fst (triggerBurst Sample.steady Sample.frozen
                            Sample.quiet)))))) = [].
Proof.
  apply (overlapping_bursts working Sample.steady Sample.frozen
           Sample.steady Sample.frozen Sample.quiet).
  split; constructor.
Defined.
